(** * AIG cut enumeration ([sat::aig_cuts], [src/sat/sat_aig_cuts.h])

    A shallow embedding of the [aig_cuts] class of the SAT core: the node
    model, the configuration record, the touch tracker and the capacity
    bookkeeping are transcribed from the class declaration, which defines
    them inline.  Member functions that the header only declares are
    modelled from the specification; each such definition says so in its
    documentation. *)

From Stdlib Require Import ZArith Lia Bool List.
From stdpp Require Import base option list.

Local Open Scope Z_scope.

(** ** Machine arithmetic

    [unsigned] is a 32-bit type: every sum and product is reduced modulo
    [2^32]. *)

Definition UINT_MAX : Z := 4294967295.

Definition wrap (z : Z) : Z := z mod (UINT_MAX + 1).

Module sat.

(** ** [enum bool_op] *)

Inductive bool_op : Set :=
| var_op
| and_op
| ite_op
| xor_op
| no_op.

Definition bool_op_eqb (a b : bool_op) : bool :=
  match a, b with
  | var_op, var_op | and_op, and_op | ite_op, ite_op
  | xor_op, xor_op | no_op, no_op => true
  | _, _ => false
  end.

(** ** Literals

    Modelled from the spec: [sat/sat_types.h] is not part of the sources.
    A literal is "a variable together with a polarity"; [var] and [sign]
    are the two accessors the class uses ([lit.var()], [head.sign()]). *)

Module literal.
Record t : Set := mk { var : Z; sign : bool }.

(** [~l] *)
Definition neg (l : t) : t := mk (var l) (negb (sign l)).

Definition eqb (a b : t) : bool :=
  (var a =? var b) && Bool.eqb (sign a) (sign b).
End literal.

(** ** [struct aig_cuts::config] *)

Module config.
Record t : Set := mk {
  m_max_cutset_size : Z;
  m_max_aux : Z;
  m_max_insertions : Z;
  m_full : bool
}.

(** [config(): m_max_cutset_size(20), m_max_aux(5), m_max_insertions(20),
    m_full(false) {}] *)
Definition default : t := mk 20 5 20 false.
End config.

(** ** [class aig_cuts::node] *)

Module node.
Record t : Set := mk {
  m_sign : bool;
  m_op : bool_op;
  m_size : Z;
  m_offset : Z
}.

(** [node()] *)
Definition default : t := mk false no_op UINT_MAX UINT_MAX.
(** [explicit node(unsigned v)] *)
Definition of_var (v : Z) : t := mk false var_op 0 v.
(** [explicit node(bool sign, bool_op op, unsigned nc, unsigned o)] *)
Definition make (sign : bool) (op : bool_op) (nc o : Z) : t := mk sign op nc o.

Definition is_valid (n : t) : bool := negb (m_offset n =? UINT_MAX).
Definition op (n : t) : bool_op := m_op n.
Definition is_var (n : t) : bool := bool_op_eqb (m_op n) var_op.
Definition is_and (n : t) : bool := bool_op_eqb (m_op n) and_op.
Definition is_xor (n : t) : bool := bool_op_eqb (m_op n) xor_op.
Definition is_ite (n : t) : bool := bool_op_eqb (m_op n) ite_op.
Definition sign (n : t) : bool := m_sign n.
Definition size (n : t) : Z := m_size n.
Definition offset (n : t) : Z := m_offset n.
Definition is_const (n : t) : bool := is_and n && (size n =? 0).
(** [var()] asserts [is_var()] and returns the offset field. *)
Definition var (n : t) : Z := m_offset n.
End node.

(** ** Cuts and cut sets

    Modelled from the spec: [sat/sat_cutset.h] is not part of the sources.
    A cut is "a (support set, truth-table bit pattern) pair"; a cut set is
    the ordered collection of the cuts of one variable, oldest first. *)

Module cut.
Record t : Set := mk { support : list Z; table : Z }.
End cut.

Definition cut_set : Set := list cut.t.

(** ** The state of an [aig_cuts] instance

    The data members of the class that hold the AIG, the arena, the cut
    sets and the bookkeeping counters, under their own names. *)

Record aig_cuts : Set := mk_aig_cuts {
  m_config : config.t;
  m_aig : list (list node.t);
  m_literals : list literal.t;
  m_cuts : list cut_set;
  m_max_cutset_size : list Z;
  m_last_touched : list Z;
  m_num_cut_calls : Z;
  m_num_cuts : Z;
  m_roots : list (Z * literal.t);
  m_insertions : Z
}.

Definition set_m_aig (s : aig_cuts) (x : list (list node.t)) : aig_cuts :=
  mk_aig_cuts (m_config s) x (m_literals s) (m_cuts s) (m_max_cutset_size s)
    (m_last_touched s) (m_num_cut_calls s) (m_num_cuts s) (m_roots s)
    (m_insertions s).

Definition set_m_literals (s : aig_cuts) (x : list literal.t) : aig_cuts :=
  mk_aig_cuts (m_config s) (m_aig s) x (m_cuts s) (m_max_cutset_size s)
    (m_last_touched s) (m_num_cut_calls s) (m_num_cuts s) (m_roots s)
    (m_insertions s).

Definition set_m_cuts (s : aig_cuts) (x : list cut_set) : aig_cuts :=
  mk_aig_cuts (m_config s) (m_aig s) (m_literals s) x (m_max_cutset_size s)
    (m_last_touched s) (m_num_cut_calls s) (m_num_cuts s) (m_roots s)
    (m_insertions s).

Definition set_m_max_cutset_size (s : aig_cuts) (x : list Z) : aig_cuts :=
  mk_aig_cuts (m_config s) (m_aig s) (m_literals s) (m_cuts s) x
    (m_last_touched s) (m_num_cut_calls s) (m_num_cuts s) (m_roots s)
    (m_insertions s).

Definition set_m_last_touched (s : aig_cuts) (x : list Z) : aig_cuts :=
  mk_aig_cuts (m_config s) (m_aig s) (m_literals s) (m_cuts s)
    (m_max_cutset_size s) x (m_num_cut_calls s) (m_num_cuts s) (m_roots s)
    (m_insertions s).

Definition set_m_num_cut_calls (s : aig_cuts) (x : Z) : aig_cuts :=
  mk_aig_cuts (m_config s) (m_aig s) (m_literals s) (m_cuts s)
    (m_max_cutset_size s) (m_last_touched s) x (m_num_cuts s) (m_roots s)
    (m_insertions s).

Definition set_m_roots (s : aig_cuts) (x : list (Z * literal.t)) : aig_cuts :=
  mk_aig_cuts (m_config s) (m_aig s) (m_literals s) (m_cuts s)
    (m_max_cutset_size s) (m_last_touched s) (m_num_cut_calls s)
    (m_num_cuts s) x (m_insertions s).

(** [m_aig.size()] *)
Definition aig_size (s : aig_cuts) : Z := Z.of_nat (length (m_aig s)).

(** ** Touch tracker (inline in the class declaration)

    A vector read or write outside its bounds has no defined result; such
    an access is [None]. *)

(** [bool is_touched(bool_var v) const
      { return m_last_touched[v] + m_aig.size()
               >= m_num_cut_calls * m_aig.size(); }] *)
Definition is_touched (s : aig_cuts) (v : Z) : option bool :=
  lt ← m_last_touched s !! Z.to_nat v;
  Some (wrap (m_num_cut_calls s * aig_size s) <=? wrap (lt + aig_size s)).

(** [bool is_touched(literal lit) const { return is_touched(lit.var()); }] *)
Definition is_touched_lit (s : aig_cuts) (l : literal.t) : option bool :=
  is_touched s (literal.var l).

(** [void touch(bool_var v)
      { m_last_touched[v] = v + m_num_cut_calls * m_aig.size(); }] *)
Definition touch (s : aig_cuts) (v : Z) : option aig_cuts :=
  _ ← m_last_touched s !! Z.to_nat v;
  Some (set_m_last_touched s
          (<[Z.to_nat v := wrap (v + wrap (m_num_cut_calls s * aig_size s))]>
             (m_last_touched s))).

(** ** Capacity bookkeeping (inline in the class declaration) *)

(** [unsigned max_cutset_size(unsigned v) const
      { return v == UINT_MAX ? m_config.m_max_cutset_size
                             : m_max_cutset_size[v]; }] *)
Definition max_cutset_size (s : aig_cuts) (v : Z) : option Z :=
  if v =? UINT_MAX then Some (config.m_max_cutset_size (m_config s))
  else m_max_cutset_size s !! Z.to_nat v.

(** [void inc_max_cutset_size(unsigned v)
      { m_max_cutset_size[v] += 10; touch(v); }] *)
Definition inc_max_cutset_size (s : aig_cuts) (v : Z) : option aig_cuts :=
  c ← m_max_cutset_size s !! Z.to_nat v;
  touch (set_m_max_cutset_size s
           (<[Z.to_nat v := wrap (c + 10)]> (m_max_cutset_size s))) v.

(** [inc_max_cutset_size(v)] called [n] times in a row. *)
Fixpoint inc_max_cutset_size_n (n : nat) (s : aig_cuts) (v : Z)
  : option aig_cuts :=
  match n with
  | O => Some s
  | S n' => s' ← inc_max_cutset_size s v; inc_max_cutset_size_n n' s' v
  end.

(** [literal child(node const& n, unsigned idx) const
      { SASSERT(!n.is_var()); SASSERT(idx < n.size());
        return m_literals[n.offset() + idx]; }] *)
Definition child (s : aig_cuts) (n : node.t) (idx : Z) : option literal.t :=
  m_literals s !! Z.to_nat (wrap (node.offset n + idx)).

(** [unsigned num_cuts() const { return m_num_cuts; }] *)
Definition num_cuts (s : aig_cuts) : Z := m_num_cuts s.

(** ** The AIG store

    The member functions of this part are declared in the header and
    defined in [sat_aig_cuts.cpp], which is not part of the sources. *)

(** Modelled from the spec: the body of the constructor [aig_cuts()] is
    missing.  The vectors start empty and the counters at zero; the
    [m_config] member is built by [config()]. *)
Definition init : aig_cuts :=
  mk_aig_cuts config.default [] [] [] [] [] 0 0 [] 0.

(** A vector grown to [n] entries, new entries holding [d]. *)
Definition grow {A : Type} (l : list A) (n : nat) (d : A) : list A :=
  l ++ replicate (n - length l) d.

(** Modelled from the spec: the body of [reserve] is missing.  "The store
    must defensively grow its backing storage": the four per-variable
    vectors get an entry for [v]; a new variable has no definition, no cut,
    the configured cut-set capacity and the stamp zero. *)
Definition reserve (s : aig_cuts) (v : Z) : aig_cuts :=
  let n := Z.to_nat (v + 1) in
  mk_aig_cuts (m_config s)
    (grow (m_aig s) n [])
    (m_literals s)
    (grow (m_cuts s) n [])
    (grow (m_max_cutset_size s) n (config.m_max_cutset_size (m_config s)))
    (grow (m_last_touched s) n 0)
    (m_num_cut_calls s) (m_num_cuts s) (m_roots s) (m_insertions s).

(** The trivial cut of [v]: support [{v}], and the identity table over one
    variable (row 0 is false, row 1 is true). *)
Definition trivial_cut (v : Z) : cut.t := cut.mk [v] 2.

(** Modelled from the spec: the body of [init_cut_set] is missing.  The cut
    set of [id] is reset to the trivial identity cut alone. *)
Definition init_cut_set (s : aig_cuts) (id : Z) : aig_cuts :=
  set_m_cuts s (<[Z.to_nat id := [trivial_cut id]]> (m_cuts s)).

(** A variable whose vectors can be allocated: [v + 1] entries must be
    counted by an [unsigned]. *)
Definition is_var_id (v : Z) : bool := (0 <=? v) && (v <? UINT_MAX).

(** Modelled from the spec: the body of [add_var] is missing.  "Registers a
    leaf variable; creates its trivial identity cut." *)
Definition add_var (s : aig_cuts) (v : Z) : option aig_cuts :=
  if is_var_id v then
    let s1 := reserve s v in
    Some (init_cut_set
            (set_m_aig s1 (<[Z.to_nat v := [node.of_var v]]> (m_aig s1))) v)
  else None.

(** The alternative with the most children, with its position; the first
    one among equals. *)
Fixpoint worst_from (i : nat) (alts : list node.t) (best : nat * node.t)
  : nat * node.t :=
  match alts with
  | [] => best
  | n :: rest =>
      worst_from (S i) rest
        (if node.size (snd best) <? node.size n then (i, n) else best)
  end.

Definition worst (alts : list node.t) : option (nat * node.t) :=
  match alts with
  | [] => None
  | n :: rest => Some (worst_from 1 rest (0%nat, n))
  end.

(** The alternative definitions of [v]. *)
Definition alternatives (s : aig_cuts) (v : Z) : list node.t :=
  default [] (m_aig s !! Z.to_nat v).

(** Modelled from the spec: the body of [insert_aux] is missing.  The new
    definition is appended while the variable holds fewer than [m_max_aux]
    alternatives; at the maximum it replaces the worst alternative if it has
    strictly fewer children, and is dropped otherwise.  The result tells
    whether the definition was stored. *)
Definition insert_aux (s : aig_cuts) (v : Z) (n : node.t) : bool * aig_cuts :=
  let alts := alternatives s v in
  if Z.of_nat (length alts) <? config.m_max_aux (m_config s) then
    (true, set_m_aig s (<[Z.to_nat v := alts ++ [n]]> (m_aig s)))
  else
    match worst alts with
    | Some (i, w) =>
        if node.size n <? node.size w then
          (true, set_m_aig s (<[Z.to_nat v := delete i alts ++ [n]]> (m_aig s)))
        else (false, s)
    | None => (false, s)
    end.

(** The arguments [add_node] reads: [sz] literals starting at [args]. *)
Definition add_node_ok (s : aig_cuts) (head : literal.t) (sz : Z)
    (args : list literal.t) : bool :=
  is_var_id (literal.var head)
  && (0 <=? sz) && (sz <=? Z.of_nat (length args))
  && forallb (fun l => is_var_id (literal.var l)) (take (Z.to_nat sz) args)
  && (Z.of_nat (length (m_literals s)) + sz <=? UINT_MAX).

(** The state in which [add_node] offers the node to [insert_aux]: storage
    reserved for the head and the arguments, and the arguments appended to
    the arena. *)
Definition add_node_pre (s : aig_cuts) (head : literal.t) (sz : Z)
    (args : list literal.t) : aig_cuts :=
  let s1 := foldl reserve (reserve s (literal.var head))
              (literal.var <$> take (Z.to_nat sz) args) in
  set_m_literals s1 (m_literals s1 ++ take (Z.to_nat sz) args).

(** The node [add_node] builds: the head's sign, the operator, the child
    count and the arena offset of the first child. *)
Definition add_node_node (s : aig_cuts) (head : literal.t) (op : bool_op)
    (sz : Z) : node.t :=
  node.make (literal.sign head) op sz (Z.of_nat (length (m_literals s))).

(** Modelled from the spec: the body of [add_node] is missing.  "Registers
    a new alternative definition for [head.var()], built from [op] and the
    literal list [args], storing [head]'s sign as the node's sign."  The
    children go to the end of the arena.  A definition that [insert_aux]
    drops is silently ignored; one that is stored resets the cut set of the
    variable and touches it. *)
Definition add_node (s : aig_cuts) (head : literal.t) (op : bool_op)
    (sz : Z) (args : list literal.t) : option aig_cuts :=
  if add_node_ok s head sz args then
    let v := literal.var head in
    let s2 := add_node_pre s head sz args in
    match insert_aux s2 v (add_node_node s head op sz) with
    | (true, s3) => touch (init_cut_set s3 v) v
    | (false, _) => Some (set_m_literals s2 (m_literals s))
    end
  else None.

(** Modelled from the spec: the body of [set_root] is missing.  "Records
    that [v]'s canonical literal is now [r]; must be idempotent." *)
Definition set_root (s : aig_cuts) (v : Z) (r : literal.t) : aig_cuts :=
  if existsb (fun p => (fst p =? v) && literal.eqb (snd p) r) (m_roots s)
  then s
  else set_m_roots s (m_roots s ++ [(v, r)]).

(** The root recorded last for [v], if any. *)
Fixpoint find_root (roots : list (Z * literal.t)) (v : Z) : option literal.t :=
  match roots with
  | [] => None
  | (u, r) :: rest =>
      match find_root rest v with
      | Some r' => Some r'
      | None => if u =? v then Some r else None
      end
  end.

(** The canonical literal of [l]: the root chain is followed, the signs met
    on the way composed.  A chain without a cycle is at most as long as the
    root map. *)
Fixpoint to_root (fuel : nat) (roots : list (Z * literal.t)) (l : literal.t)
  : literal.t :=
  match fuel with
  | O => l
  | S fuel' =>
      match find_root roots (literal.var l) with
      | Some r =>
          to_root fuel' roots (if literal.sign l then literal.neg r else r)
      | None => l
      end
  end.

Definition has_children (n : node.t) : bool :=
  node.is_and n || node.is_xor n || node.is_ite n.

(** [flush_roots(to_root, n)]: the children of [n] are rewritten in place. *)
Definition flush_roots_node (f : literal.t -> literal.t)
    (lits : list literal.t) (n : node.t) : list literal.t :=
  if has_children n then
    foldl (fun ls i => alter f i ls) lits
      (seq (Z.to_nat (node.offset n)) (Z.to_nat (node.size n)))
  else lits.

(** [flush_roots(to_root, cs)]: the support entries are rewritten. *)
Definition flush_roots_cut (f : literal.t -> literal.t) (c : cut.t) : cut.t :=
  cut.mk ((fun x => literal.var (f (literal.mk x false))) <$> cut.support c)
    (cut.table c).

(** Modelled from the spec: the body of [flush_roots] is missing.  "Walks
    every Node definition and every Cut-Set entry and rewrites any child
    literal whose variable has a non-identity Root Map entry to its
    canonical literal." *)
Definition flush_roots (s : aig_cuts) : aig_cuts :=
  let f := to_root (length (m_roots s)) (m_roots s) in
  set_m_cuts
    (set_m_literals s
       (foldl (foldl (flush_roots_node f)) (m_literals s) (m_aig s)))
    (fmap (M:=list) (flush_roots_cut f) <$> m_cuts s).

(** A variable has a definition when one of its alternatives is valid. *)
Definition has_valid_definition (alts : list node.t) : bool :=
  existsb node.is_valid alts.

(** The ids, counted from [id], of the entries that hold a valid
    definition. *)
Fixpoint filter_valid_from (id : Z) (aig : list (list node.t)) : list Z :=
  match aig with
  | [] => []
  | alts :: rest =>
      (if has_valid_definition alts then [id] else [])
        ++ filter_valid_from (id + 1) rest
  end.

(** Modelled from the spec: the body of [filter_valid_nodes] is missing.
    "Filter the set of variables whose definitions are valid": the result
    lists, in increasing order, the variables of [m_aig] that hold a valid
    definition. *)
Definition filter_valid_nodes (s : aig_cuts) : list Z :=
  filter_valid_from 0 (m_aig s).

(** ** The enumeration pass

    The cut composition of [augment] and the cut-set collection are outside
    the sources and stay a parameter: [enumerate] stands for one run of
    [augment(filter_valid_nodes())], from which [operator()] keeps what the
    enumerator writes, the cut sets, the touch stamps and its counters. *)

Section Enumeration.

Variable enumerate : aig_cuts -> aig_cuts.

(** Modelled from the spec: the body of [operator()] is missing.  Roots
    recorded since the last pass are flushed, the cut sets are
    recomputed, and the pass is counted. *)
Definition operator_call (s : aig_cuts) : aig_cuts :=
  let s1 := flush_roots s in
  let e := enumerate s1 in
  mk_aig_cuts (m_config s1) (m_aig s1) (m_literals s1) (m_cuts e)
    (m_max_cutset_size s1) (m_last_touched e)
    (wrap (m_num_cut_calls s1 + 1)) (m_num_cuts e) (m_roots s1)
    (m_insertions e).

(** The states an instance goes through under the public operations that
    write the members modelled here: [add_var], [add_node], [set_root],
    [inc_max_cutset_size], [touch] and [operator()]. *)
Inductive reachable : aig_cuts -> Prop :=
| reachable_init : reachable init
| reachable_add_var s v s' :
    reachable s -> add_var s v = Some s' -> reachable s'
| reachable_add_node s head op sz args s' :
    reachable s -> add_node s head op sz args = Some s' -> reachable s'
| reachable_set_root s v r :
    reachable s -> reachable (set_root s v r)
| reachable_inc_max_cutset_size s v s' :
    reachable s -> inc_max_cutset_size s v = Some s' -> reachable s'
| reachable_touch s v s' :
    reachable s -> touch s v = Some s' -> reachable s'
| reachable_operator_call s :
    reachable s -> reachable (operator_call s).

End Enumeration.

(** ** The arena invariant

    Every stored node that has children keeps them inside the arena, and
    the arena is short enough for an [unsigned] to index it. *)
Definition arena_inv (s : aig_cuts) : Prop :=
  Z.of_nat (length (m_literals s)) <= UINT_MAX
  /\ forall (v : nat) (alts : list node.t) (n : node.t),
       m_aig s !! v = Some alts -> n ∈ alts -> has_children n = true ->
       0 <= node.offset n /\ 0 <= node.size n
       /\ node.offset n + node.size n <= Z.of_nat (length (m_literals s)).

End sat.

Import sat.

(** ** Concrete instances *)

(** An instance with 65536 variables after 65535 enumeration passes: the
    product [m_num_cut_calls * m_aig.size()] is [2^32 - 65536]. *)
Definition stamp_overflow_state : aig_cuts :=
  let n := Z.to_nat 65536 in
  mk_aig_cuts config.default (replicate n []) [] (replicate n [])
    (replicate n 20) (replicate n 0) 65535 0 [] 0.

(** An instance with one variable whose capacity was raised up to
    [UINT_MAX - 5]. *)
Definition capacity_overflow_state : aig_cuts :=
  mk_aig_cuts config.default [[node.of_var 0]] [] [[trivial_cut 0]]
    [4294967290] [0] 0 0 [] 0.

(** An instance with three variables, before its first pass. *)
Definition small_state : aig_cuts :=
  mk_aig_cuts config.default
    [[node.of_var 0]; [node.of_var 1]; [node.make false and_op 2 0]]
    [literal.mk 0 false; literal.mk 1 false]
    [[trivial_cut 0]; [trivial_cut 1]; [trivial_cut 2]]
    [20; 20; 20] [0; 0; 0] 3 0 [] 0.

(** An instance whose variable 3 holds the maximum of five alternative
    definitions; the second one, with three children, is the worst. *)
Definition full_state : aig_cuts :=
  mk_aig_cuts config.default
    [[node.of_var 0]; [node.of_var 1]; [node.of_var 2];
     [node.make false and_op 2 0; node.make false and_op 3 2;
      node.make true xor_op 2 5; node.make false and_op 2 7;
      node.make true and_op 2 9]]
    [literal.mk 0 false; literal.mk 1 false;
     literal.mk 0 false; literal.mk 1 false; literal.mk 2 false;
     literal.mk 0 false; literal.mk 2 true;
     literal.mk 1 true; literal.mk 2 false;
     literal.mk 0 true; literal.mk 1 true]
    [[trivial_cut 0]; [trivial_cut 1]; [trivial_cut 2]; [trivial_cut 3]]
    [20; 20; 20; 20] [0; 0; 0; 0] 0 0 [] 0.

(** [full_state] late in its life: the product of the pass counter and the
    size of the store is [2^32 - 4]. *)
Definition full_state_late : aig_cuts :=
  set_m_num_cut_calls full_state 1073741823.

(** The states of a short run: two leaves are registered, variable 2 is
    defined as their conjunction, variable 1 is given the root [~0], and a
    pass is run with an enumerator that derives nothing. *)
Definition run_state1 : aig_cuts :=
  Eval vm_compute in default init (add_var init 0).
Definition run_state2 : aig_cuts :=
  Eval vm_compute in default init (add_var run_state1 1).
Definition run_state3 : aig_cuts :=
  Eval vm_compute in
    default init
      (add_node run_state2 (literal.mk 2 false) and_op 2
         [literal.mk 0 false; literal.mk 1 true]).
Definition run_state4 : aig_cuts :=
  Eval vm_compute in
    operator_call (fun s => s) (set_root run_state3 1 (literal.mk 0 true)).

(** * Theorems *)

(** ** Machine arithmetic *)

Lemma wrap_small (z : Z) : 0 <= z <= UINT_MAX -> wrap z = z.
Proof. intros H. unfold wrap. apply Z.mod_small. unfold UINT_MAX in *. lia. Qed.

Lemma wrap_range (z : Z) : 0 <= wrap z <= UINT_MAX.
Proof.
  unfold wrap. pose proof (Z.mod_pos_bound z (UINT_MAX + 1)).
  unfold UINT_MAX in *. lia.
Qed.

Lemma wrap_mul_l (a b : Z) : wrap (wrap a * b) = wrap (a * b).
Proof. unfold wrap. apply Z.mul_mod_idemp_l. unfold UINT_MAX. lia. Qed.

Lemma wrap_add_l (a b : Z) : wrap (wrap a + b) = wrap (a + b).
Proof. unfold wrap. apply Z.add_mod_idemp_l. unfold UINT_MAX. lia. Qed.

Lemma bool_op_eqb_eq (a b : bool_op) : bool_op_eqb a b = true <-> a = b.
Proof. destruct a, b; simpl; split; intros H; try reflexivity; discriminate. Qed.

(** ** The configuration record *)

(** C8.  A freshly constructed instance holds the configuration built by
    [config()] (the [m_config] member has no other initialiser): at most 20
    cuts per cut set, at most 5 alternative definitions per variable, at most
    20 insertions per enumeration call, and the [full] flag off. *)
Theorem config_default_values :
  config.m_max_cutset_size config.default = 20
  /\ config.m_max_aux config.default = 5
  /\ config.m_max_insertions config.default = 20
  /\ config.m_full config.default = false.
Proof. repeat split. Qed.

(** ** Node validity *)

Lemma is_valid_iff (n : node.t) :
  node.is_valid n = true <-> node.offset n <> UINT_MAX.
Proof.
  unfold node.is_valid, node.offset.
  rewrite negb_true_iff, Z.eqb_neq. reflexivity.
Qed.

(** The ids that [filter_valid_from] returns are those of the entries with
    a valid alternative. *)
Lemma filter_valid_from_In (aig : list (list node.t)) (id v : Z) :
  In v (filter_valid_from id aig)
  <-> id <= v
      /\ exists alts n,
           aig !! Z.to_nat (v - id) = Some alts
           /\ In n alts /\ node.is_valid n = true.
Proof.
  revert id. induction aig as [| alts rest IH]; intros id; simpl.
  - split; [contradiction |]. intros (_ & alts & n & H & _).
    rewrite lookup_nil in H. discriminate.
  - rewrite in_app_iff, IH. split.
    + intros [H | (Hle & alts' & n & Hl & Hn & Hv)].
      * unfold has_valid_definition in H.
        destruct (existsb node.is_valid alts) eqn:E; [| contradiction].
        destruct H as [<- | []]. split; [lia |].
        apply existsb_exists in E. destruct E as (n & Hn & Hv).
        exists alts, n. rewrite Z.sub_diag. repeat split; assumption.
      * split; [lia |]. exists alts', n.
        replace (Z.to_nat (v - id)) with (S (Z.to_nat (v - (id + 1)))) by lia.
        split; [exact Hl |]. split; assumption.
    + intros (Hle & alts' & n & Hl & Hn & Hv).
      destruct (Z.eq_dec v id) as [-> | Hne].
      * left. rewrite Z.sub_diag in Hl. simpl in Hl. injection Hl as <-.
        unfold has_valid_definition.
        replace (existsb node.is_valid alts) with true;
          [left; reflexivity |].
        symmetry. apply existsb_exists. exists n. split; assumption.
      * right. split; [lia |]. exists alts', n.
        replace (Z.to_nat (v - id)) with (S (Z.to_nat (v - (id + 1)))) in Hl
          by lia.
        split; [exact Hl |]. split; assumption.
Qed.

(** C10.  A node is valid exactly when its offset differs from [UINT_MAX].
    The default node (operator [no_op], offset [UINT_MAX]) is invalid; a node
    built from a variable or from explicit fields with another offset is
    valid; the var node of the variable [UINT_MAX] is invalid.  The
    valid-node filter returns exactly the variables that hold a definition
    whose offset differs from [UINT_MAX]: a variable that holds nothing but
    default nodes and the var node of [UINT_MAX] is left out, as a variable
    without a definition is. *)
Theorem node_valid_iff_offset_not_UINT_MAX :
  (forall n : node.t, node.is_valid n = true <-> node.offset n <> UINT_MAX)
  /\ (node.op node.default = no_op
      /\ node.offset node.default = UINT_MAX
      /\ node.is_valid node.default = false)
  /\ (forall v : Z, v <> UINT_MAX -> node.is_valid (node.of_var v) = true)
  /\ (forall (sign : bool) (op : bool_op) (nc o : Z),
         o <> UINT_MAX -> node.is_valid (node.make sign op nc o) = true)
  /\ (node.is_var (node.of_var UINT_MAX) = true
      /\ node.is_valid (node.of_var UINT_MAX) = false)
  /\ (forall (s : aig_cuts) (v : Z),
         In v (filter_valid_nodes s)
         <-> 0 <= v
             /\ exists n : node.t,
                  In n (alternatives s v) /\ node.offset n <> UINT_MAX)
  /\ (forall (s : aig_cuts) (v : Z),
         (forall n : node.t, In n (alternatives s v) ->
            n = node.default \/ n = node.of_var UINT_MAX) ->
         ~ In v (filter_valid_nodes s))
  /\ (forall (s : aig_cuts) (v : Z),
         alternatives s v = [] -> ~ In v (filter_valid_nodes s)).
Proof.
  assert (Hfilter : forall (s : aig_cuts) (v : Z),
             In v (filter_valid_nodes s)
             <-> 0 <= v
                 /\ exists n : node.t,
                      In n (alternatives s v) /\ node.offset n <> UINT_MAX).
  { intros s v. unfold filter_valid_nodes, alternatives.
    rewrite filter_valid_from_In, Z.sub_0_r. split.
    - intros (Hv & alts & n & Hl & Hn & Hval). split; [exact Hv |].
      exists n. rewrite Hl. simpl. split; [exact Hn |].
      apply is_valid_iff. exact Hval.
    - intros (Hv & n & Hn & Hoff). split; [exact Hv |].
      destruct (m_aig s !! Z.to_nat v) as [alts |]; simpl in Hn;
        [| contradiction].
      exists alts, n. repeat split; [exact Hn |].
      apply is_valid_iff. exact Hoff. }
  split; [exact is_valid_iff |].
  split; [repeat split |].
  split; [intros v Hv; apply is_valid_iff; exact Hv |].
  split; [intros sg op nc o Ho; apply is_valid_iff; exact Ho |].
  split; [repeat split |].
  split; [exact Hfilter |].
  split.
  - intros s v Hall Hin. apply Hfilter in Hin.
    destruct Hin as (_ & n & Hn & Hoff).
    destruct (Hall n Hn) as [-> | ->]; apply Hoff; reflexivity.
  - intros s v Hnil Hin. apply Hfilter in Hin.
    destruct Hin as (_ & n & Hn & _). rewrite Hnil in Hn. contradiction.
Qed.

(** ** The touch tracker *)

Lemma aig_size_set_m_last_touched (s : aig_cuts) (x : list Z) :
  aig_size (set_m_last_touched s x) = aig_size s.
Proof. reflexivity. Qed.

Lemma aig_size_nonneg (s : aig_cuts) : 0 <= aig_size s.
Proof. unfold aig_size. lia. Qed.

(** [touch] is defined exactly on the variables that have a stamp. *)
Lemma touch_defined (s : aig_cuts) (v : Z) :
  (Z.to_nat v < length (m_last_touched s))%nat ->
  touch s v =
    Some (set_m_last_touched s
            (<[Z.to_nat v := wrap (v + wrap (m_num_cut_calls s * aig_size s))]>
               (m_last_touched s))).
Proof.
  intros Hlen. unfold touch.
  destruct (lookup_lt_is_Some_2 (m_last_touched s) (Z.to_nat v) Hlen) as [x Hx].
  rewrite Hx. reflexivity.
Qed.

(** What [is_touched] computes once the stamp of [v] is known. *)
Lemma is_touched_stamp (s : aig_cuts) (v lt : Z) :
  m_last_touched s !! Z.to_nat v = Some lt ->
  is_touched s v =
    Some (wrap (m_num_cut_calls s * aig_size s) <=? wrap (lt + aig_size s)).
Proof. intros H. unfold is_touched. rewrite H. reflexivity. Qed.

(** The comparison of [is_touched] on a stamp written by [touch] in a pass
    whose stamp arithmetic does not wrap: it holds in that pass and in the
    next one. *)
Lemma stamp_fresh (c n v : Z) :
  0 <= v -> 0 <= n ->
  wrap (c * n) + n + v <= UINT_MAX ->
  (wrap (c * n) <=? wrap (wrap (v + wrap (c * n)) + n)) = true
  /\ (wrap (wrap (c + 1) * n) <=? wrap (wrap (v + wrap (c * n)) + n)) = true.
Proof.
  intros Hv Hn Hb.
  pose proof (wrap_range (c * n)) as HP.
  rewrite (wrap_small (v + wrap (c * n))) by lia.
  rewrite (wrap_small (v + wrap (c * n) + n)) by lia.
  split; [apply Z.leb_le; lia |].
  rewrite wrap_mul_l.
  replace ((c + 1) * n) with (c * n + n) by ring.
  rewrite <- wrap_add_l.
  rewrite (wrap_small (wrap (c * n) + n)) by lia.
  apply Z.leb_le. lia.
Qed.

(** C9, as the code has it.  For a variable [v < m_aig.size()], provided
    the stamp arithmetic of the current pass does not wrap around [2^32]
    (that is, [(m_num_cut_calls * m_aig.size()) mod 2^32 + m_aig.size() + v]
    is at most [UINT_MAX]): after [touch(v)], [is_touched(v)] is true, and it
    is still true once [m_num_cut_calls] has been incremented. *)
Theorem touch_then_is_touched (s : aig_cuts) (v : Z) :
  0 <= v < aig_size s ->
  (Z.to_nat v < length (m_last_touched s))%nat ->
  wrap (m_num_cut_calls s * aig_size s) + aig_size s + v <= UINT_MAX ->
  exists s' : aig_cuts,
    touch s v = Some s'
    /\ m_last_touched s' !! Z.to_nat v
       = Some (wrap (v + wrap (m_num_cut_calls s * aig_size s)))
    /\ is_touched s' v = Some true
    /\ is_touched (set_m_num_cut_calls s' (wrap (m_num_cut_calls s' + 1))) v
       = Some true.
Proof.
  intros Hv Hlen Hb.
  set (st := wrap (v + wrap (m_num_cut_calls s * aig_size s))).
  set (s' := set_m_last_touched s (<[Z.to_nat v := st]> (m_last_touched s))).
  assert (Hst : m_last_touched s' !! Z.to_nat v = Some st)
    by (apply list_lookup_insert_eq; exact Hlen).
  destruct (stamp_fresh (m_num_cut_calls s) (aig_size s) v) as [H1 H2];
    [lia | lia | exact Hb |].
  exists s'. split; [apply touch_defined; exact Hlen |].
  split; [exact Hst |]. split.
  - rewrite (is_touched_stamp s' v st Hst). f_equal. exact H1.
  - rewrite (is_touched_stamp
               (set_m_num_cut_calls s' (wrap (m_num_cut_calls s' + 1))) v st Hst).
    f_equal. exact H2.
Qed.

(** An instance: variable 2 of [small_state], three passes in. *)
Lemma touch_then_is_touched_witness :
  exists s' : aig_cuts,
    touch small_state 2 = Some s'
    /\ m_last_touched s' !! Z.to_nat 2
       = Some (wrap (2 + wrap (m_num_cut_calls small_state * aig_size small_state)))
    /\ is_touched s' 2 = Some true
    /\ is_touched (set_m_num_cut_calls s' (wrap (m_num_cut_calls s' + 1))) 2
       = Some true.
Proof.
  apply (touch_then_is_touched small_state 2).
  - vm_compute. split; [discriminate | reflexivity].
  - vm_compute. lia.
  - vm_compute. discriminate.
Defined.

(** C9 fails as stated: with 65536 variables and 65535 passes behind it,
    variable 0 is in range, [touch(0)] writes the stamp [2^32 - 65536], and
    the sum [m_last_touched[0] + m_aig.size()] wraps to 0, so [is_touched(0)]
    is false right after the touch. *)
Lemma touch_then_not_touched_on_wrap :
  0 <= 0 < aig_size stamp_overflow_state
  /\ exists s' : aig_cuts,
       touch stamp_overflow_state 0 = Some s'
       /\ m_last_touched s' !! Z.to_nat 0 = Some 4294901760
       /\ is_touched s' 0 = Some false.
Proof.
  split; [vm_compute; split; [discriminate | reflexivity] |].
  eexists. split.
  - apply touch_defined. apply Nat.ltb_lt. vm_compute. reflexivity.
  - split; vm_compute; reflexivity.
Qed.

(** ** Raising a capacity *)

(** [inc_max_cutset_size] is defined on the variables that have a capacity
    and a stamp. *)
Lemma inc_max_cutset_size_defined (s : aig_cuts) (v c : Z) :
  m_max_cutset_size s !! Z.to_nat v = Some c ->
  (Z.to_nat v < length (m_last_touched s))%nat ->
  inc_max_cutset_size s v =
    Some (set_m_last_touched
            (set_m_max_cutset_size s
               (<[Z.to_nat v := wrap (c + 10)]> (m_max_cutset_size s)))
            (<[Z.to_nat v := wrap (v + wrap (m_num_cut_calls s * aig_size s))]>
               (m_last_touched s))).
Proof.
  intros Hc Hlen. unfold inc_max_cutset_size. rewrite Hc. simpl.
  rewrite touch_defined by exact Hlen. reflexivity.
Qed.

(** C7, as the code has it.  Provided the capacity of [v] is at most
    [UINT_MAX - 10] and the stamp arithmetic of the current pass does not wrap
    around [2^32], [inc_max_cutset_size(v)] raises the capacity of [v] by
    exactly 10 and stamps [v] so that [is_touched(v)] holds; the capacity and
    the stamp of every other variable, the AIG store with its arena, the cut
    sets, the root map, the configuration and the counters are unchanged. *)
Theorem inc_max_cutset_size_raises_and_touches (s : aig_cuts) (v c : Z) :
  0 <= v ->
  m_max_cutset_size s !! Z.to_nat v = Some c ->
  (Z.to_nat v < length (m_last_touched s))%nat ->
  0 <= c <= UINT_MAX - 10 ->
  wrap (m_num_cut_calls s * aig_size s) + aig_size s + v <= UINT_MAX ->
  exists s' : aig_cuts,
    inc_max_cutset_size s v = Some s'
    /\ m_max_cutset_size s' !! Z.to_nat v = Some (c + 10)
    /\ is_touched s' v = Some true
    /\ (forall u : nat, u <> Z.to_nat v ->
          m_max_cutset_size s' !! u = m_max_cutset_size s !! u
          /\ m_last_touched s' !! u = m_last_touched s !! u)
    /\ m_aig s' = m_aig s
    /\ m_literals s' = m_literals s
    /\ m_cuts s' = m_cuts s
    /\ m_roots s' = m_roots s
    /\ m_config s' = m_config s
    /\ m_num_cut_calls s' = m_num_cut_calls s
    /\ m_num_cuts s' = m_num_cuts s.
Proof.
  intros Hv Hc Hlen Hcap Hb.
  eexists. split; [apply (inc_max_cutset_size_defined s v c Hc Hlen) |].
  match goal with |- context [set_m_last_touched ?a ?b] =>
    set (s' := set_m_last_touched a b) end.
  assert (Hst : m_last_touched s' !! Z.to_nat v
                = Some (wrap (v + wrap (m_num_cut_calls s * aig_size s))))
    by (apply list_lookup_insert_eq; exact Hlen).
  split.
  { simpl. rewrite list_lookup_insert_eq by (eapply lookup_lt_Some; exact Hc).
    rewrite wrap_small by lia. reflexivity. }
  split.
  { rewrite (is_touched_stamp s' v _ Hst). f_equal.
    apply (stamp_fresh (m_num_cut_calls s) (aig_size s) v);
      [lia | apply aig_size_nonneg | exact Hb]. }
  split.
  { intros u Hu. simpl. split; apply list_lookup_insert_ne; congruence. }
  repeat split.
Qed.

(** An instance: variable 1 of [small_state], whose capacity is 20. *)
Lemma inc_max_cutset_size_raises_and_touches_witness :
  exists s' : aig_cuts,
    inc_max_cutset_size small_state 1 = Some s'
    /\ m_max_cutset_size s' !! Z.to_nat 1 = Some (20 + 10)
    /\ is_touched s' 1 = Some true
    /\ (forall u : nat, u <> Z.to_nat 1 ->
          m_max_cutset_size s' !! u = m_max_cutset_size small_state !! u
          /\ m_last_touched s' !! u = m_last_touched small_state !! u)
    /\ m_aig s' = m_aig small_state
    /\ m_literals s' = m_literals small_state
    /\ m_cuts s' = m_cuts small_state
    /\ m_roots s' = m_roots small_state
    /\ m_config s' = m_config small_state
    /\ m_num_cut_calls s' = m_num_cut_calls small_state
    /\ m_num_cuts s' = m_num_cuts small_state.
Proof.
  apply (inc_max_cutset_size_raises_and_touches small_state 1 20).
  - lia.
  - reflexivity.
  - vm_compute. lia.
  - unfold UINT_MAX. lia.
  - vm_compute. discriminate.
Defined.

(** C7 fails as stated, in two ways.  With 65536 variables and 65535 passes
    behind it, [inc_max_cutset_size(0)] leaves [is_touched(0)] false, the
    stamp sum wrapping to 0.  And on a capacity of [UINT_MAX - 5] the
    addition wraps: the capacity becomes 4. *)
Lemma inc_max_cutset_size_wraps :
  (exists s' : aig_cuts,
      inc_max_cutset_size stamp_overflow_state 0 = Some s'
      /\ is_touched s' 0 = Some false)
  /\ (exists s' : aig_cuts,
        inc_max_cutset_size capacity_overflow_state 0 = Some s'
        /\ m_max_cutset_size capacity_overflow_state !! Z.to_nat 0
           = Some 4294967290
        /\ m_max_cutset_size s' !! Z.to_nat 0 = Some 4).
Proof.
  split.
  - eexists. split.
    + apply (inc_max_cutset_size_defined stamp_overflow_state 0 20).
      * reflexivity.
      * apply Nat.ltb_lt. vm_compute. reflexivity.
    + vm_compute. reflexivity.
  - eexists. split; [reflexivity |]. split; reflexivity.
Qed.

(** ** The AIG store *)

Lemma length_grow {A : Type} (l : list A) (n : nat) (d : A) :
  length (grow l n d) = max (length l) n.
Proof. unfold grow. rewrite length_app, length_replicate. lia. Qed.

Lemma lookup_grow_old {A : Type} (l : list A) (n : nat) (d : A) (i : nat) (x : A) :
  l !! i = Some x -> grow l n d !! i = Some x.
Proof. intros H. unfold grow. apply lookup_app_l_Some. exact H. Qed.

Lemma lookup_grow {A : Type} (l : list A) (n : nat) (d : A) (i : nat) (x : A) :
  grow l n d !! i = Some x -> l !! i = Some x \/ x = d.
Proof.
  unfold grow. intros H. apply lookup_app_Some in H.
  destruct H as [H | [_ H]]; [left; exact H | right].
  apply lookup_replicate in H. apply H.
Qed.

(** [reserve] adds variables without a definition: the alternatives of
    every variable are what they were. *)
Lemma alternatives_reserve (s : aig_cuts) (v u : Z) :
  alternatives (reserve s v) u = alternatives s u.
Proof.
  unfold alternatives. simpl.
  destruct (grow (m_aig s) (Z.to_nat (v + 1)) [] !! Z.to_nat u) as [x |] eqn:Hg.
  - destruct (lookup_grow _ _ _ _ _ Hg) as [H | H].
    + rewrite H. reflexivity.
    + subst x. simpl. destruct (m_aig s !! Z.to_nat u) as [y |] eqn:Hy;
        [| reflexivity].
      rewrite (lookup_grow_old _ _ _ _ _ Hy) in Hg. injection Hg as ->.
      reflexivity.
  - destruct (m_aig s !! Z.to_nat u) as [y |] eqn:Hy; [| reflexivity].
    rewrite (lookup_grow_old _ _ _ _ _ Hy) in Hg. discriminate.
Qed.

Lemma alternatives_foldl_reserve (vs : list Z) (s : aig_cuts) (u : Z) :
  alternatives (foldl reserve s vs) u = alternatives s u.
Proof.
  revert s. induction vs as [| w vs IH]; intros s; simpl; [reflexivity |].
  rewrite IH. apply alternatives_reserve.
Qed.

Lemma foldl_reserve_fields (vs : list Z) (s : aig_cuts) :
  m_config (foldl reserve s vs) = m_config s
  /\ m_literals (foldl reserve s vs) = m_literals s
  /\ m_num_cut_calls (foldl reserve s vs) = m_num_cut_calls s
  /\ m_roots (foldl reserve s vs) = m_roots s
  /\ (length (m_last_touched s) <= length (m_last_touched (foldl reserve s vs)))%nat
  /\ (length (m_aig s) <= length (m_aig (foldl reserve s vs)))%nat.
Proof.
  revert s. induction vs as [| w vs IH]; intros s; simpl.
  - repeat split; lia.
  - destruct (IH (reserve s w)) as (H1 & H2 & H3 & H4 & H5 & H6).
    change (m_last_touched (reserve s w))
      with (grow (m_last_touched s) (Z.to_nat (w + 1)) 0) in H5.
    change (m_aig (reserve s w))
      with (grow (m_aig s) (Z.to_nat (w + 1)) []) in H6.
    rewrite length_grow in H5. rewrite length_grow in H6.
    repeat split; try assumption; lia.
Qed.

(** Existing entries of the per-variable vectors survive [reserve]. *)
Lemma foldl_reserve_keeps (vs : list Z) (s : aig_cuts) (u : nat) :
  (forall x, m_aig s !! u = Some x -> m_aig (foldl reserve s vs) !! u = Some x)
  /\ (forall x, m_cuts s !! u = Some x ->
        m_cuts (foldl reserve s vs) !! u = Some x)
  /\ (forall x, m_max_cutset_size s !! u = Some x ->
        m_max_cutset_size (foldl reserve s vs) !! u = Some x)
  /\ (forall x, m_last_touched s !! u = Some x ->
        m_last_touched (foldl reserve s vs) !! u = Some x).
Proof.
  revert s. induction vs as [| w vs IH]; intros s; simpl.
  - repeat split; intros x H; exact H.
  - destruct (IH (reserve s w)) as (H1 & H2 & H3 & H4).
    repeat split; intros x H;
      [apply H1 | apply H2 | apply H3 | apply H4];
      simpl; apply lookup_grow_old; exact H.
Qed.

(** *** The worst alternative *)

Lemma worst_from_spec (rest pre : list node.t) (b : nat) (nb : node.t) :
  pre !! b = Some nb ->
  (forall n, n ∈ pre -> node.size n <= node.size nb) ->
  let r := worst_from (length pre) rest (b, nb) in
  (pre ++ rest) !! fst r = Some (snd r)
  /\ (forall n, n ∈ pre ++ rest -> node.size n <= node.size (snd r)).
Proof.
  revert pre b nb. induction rest as [| n rest IH]; intros pre b nb Hb Hmax; simpl.
  - rewrite app_nil_r. split; assumption.
  - replace (pre ++ n :: rest) with ((pre ++ [n]) ++ rest)
      by (rewrite <- app_assoc; reflexivity).
    replace (S (length pre)) with (length (pre ++ [n]))
      by (rewrite length_app; simpl; lia).
    destruct (node.size nb <? node.size n) eqn:Hlt.
    + apply Z.ltb_lt in Hlt. apply IH.
      * rewrite lookup_app_r by lia. rewrite Nat.sub_diag. reflexivity.
      * intros m Hm. apply elem_of_app in Hm. destruct Hm as [Hm | Hm].
        -- specialize (Hmax m Hm). lia.
        -- apply list_elem_of_singleton in Hm. subst m. lia.
    + apply Z.ltb_ge in Hlt. apply IH.
      * apply lookup_app_l_Some. exact Hb.
      * intros m Hm. apply elem_of_app in Hm. destruct Hm as [Hm | Hm].
        -- apply Hmax. exact Hm.
        -- apply list_elem_of_singleton in Hm. subst m. simpl. lia.
Qed.

(** [worst] returns a stored alternative that has at least as many children
    as every other one. *)
Lemma worst_spec (alts : list node.t) (i : nat) (w : node.t) :
  worst alts = Some (i, w) ->
  alts !! i = Some w /\ (forall n, n ∈ alts -> node.size n <= node.size w).
Proof.
  destruct alts as [| n rest]; simpl; [discriminate |].
  intros H. injection H as H.
  pose proof (worst_from_spec rest [n] 0 n eq_refl) as Hs.
  simpl in Hs. rewrite H in Hs. simpl in Hs. apply Hs.
  intros m Hm. apply list_elem_of_singleton in Hm. subst m. lia.
Qed.

Lemma worst_None (alts : list node.t) : worst alts = None <-> alts = [].
Proof. destruct alts; simpl; split; intros H; congruence. Qed.

Lemma worst_from_first (rest pre : list node.t) (b : nat) (nb : node.t) :
  (b < length pre)%nat ->
  (forall n, n ∈ pre -> node.size n <= node.size nb) ->
  (forall j m, (j < b)%nat -> pre !! j = Some m -> node.size m < node.size nb) ->
  let r := worst_from (length pre) rest (b, nb) in
  forall j m, (j < fst r)%nat -> (pre ++ rest) !! j = Some m ->
    node.size m < node.size (snd r).
Proof.
  revert pre b nb. induction rest as [| n rest IH];
    intros pre b nb Hb Hmax Hfirst; simpl.
  - rewrite app_nil_r. exact Hfirst.
  - replace (pre ++ n :: rest) with ((pre ++ [n]) ++ rest)
      by (rewrite <- app_assoc; reflexivity).
    replace (S (length pre)) with (length (pre ++ [n]))
      by (rewrite length_app; simpl; lia).
    destruct (node.size nb <? node.size n) eqn:Hlt.
    + apply Z.ltb_lt in Hlt. apply IH.
      * rewrite length_app. simpl. lia.
      * intros m Hm. apply elem_of_app in Hm. destruct Hm as [Hm | Hm].
        -- specialize (Hmax m Hm). lia.
        -- apply list_elem_of_singleton in Hm. subst m. lia.
      * intros j m Hj Hm. rewrite lookup_app_l in Hm by exact Hj.
        apply list_elem_of_lookup_2 in Hm. specialize (Hmax m Hm). lia.
    + apply Z.ltb_ge in Hlt. apply IH.
      * rewrite length_app. simpl. lia.
      * intros m Hm. apply elem_of_app in Hm. destruct Hm as [Hm | Hm].
        -- apply Hmax. exact Hm.
        -- apply list_elem_of_singleton in Hm. subst m. simpl. lia.
      * intros j m Hj Hm. rewrite lookup_app_l in Hm by lia.
        exact (Hfirst j m Hj Hm).
Qed.

(** Among the alternatives with the most children, [worst] returns the
    first. *)
Lemma worst_first (alts : list node.t) (i : nat) (w : node.t) :
  worst alts = Some (i, w) ->
  forall j m, (j < i)%nat -> alts !! j = Some m -> node.size m < node.size w.
Proof.
  destruct alts as [| n rest]; simpl; [discriminate |].
  intros H. injection H as H.
  pose proof (worst_from_first rest [n] 0 n) as Hs.
  simpl in Hs. rewrite H in Hs. simpl in Hs. apply Hs.
  - lia.
  - intros m Hm. apply list_elem_of_singleton in Hm. subst m. lia.
  - intros j m Hj. lia.
Qed.

(** [insert_aux] changes nothing but the definitions of [v]. *)
Lemma insert_aux_frame (s : aig_cuts) (v : Z) (n : node.t) :
  snd (insert_aux s v n) = set_m_aig s (m_aig (snd (insert_aux s v n)))
  /\ (forall u : nat, u <> Z.to_nat v ->
        m_aig (snd (insert_aux s v n)) !! u = m_aig s !! u)
  /\ length (m_aig (snd (insert_aux s v n))) = length (m_aig s).
Proof.
  assert (Hid : s = set_m_aig s (m_aig s)) by (destruct s; reflexivity).
  unfold insert_aux.
  destruct (Z.of_nat (length (alternatives s v)) <? config.m_max_aux (m_config s)).
  - simpl. split; [reflexivity |]. split.
    + intros u Hu. apply list_lookup_insert_ne. congruence.
    + apply length_insert.
  - destruct (worst (alternatives s v)) as [[i w] |].
    + destruct (node.size n <? node.size w); simpl.
      * split; [reflexivity |]. split.
        -- intros u Hu. apply list_lookup_insert_ne. congruence.
        -- apply length_insert.
      * split; [exact Hid |]. split; [intros u Hu |]; reflexivity.
    + simpl. split; [exact Hid |]. split; [intros u Hu |]; reflexivity.
Qed.

(** *** [add_node] *)

Lemma is_var_id_range (v : Z) : is_var_id v = true -> 0 <= v < UINT_MAX.
Proof.
  unfold is_var_id. rewrite andb_true_iff, Z.leb_le, Z.ltb_lt. tauto.
Qed.

Lemma add_node_ok_spec (s : aig_cuts) (head : literal.t) (sz : Z)
    (args : list literal.t) :
  add_node_ok s head sz args = true ->
  0 <= literal.var head < UINT_MAX
  /\ 0 <= sz <= Z.of_nat (length args)
  /\ Z.of_nat (length (m_literals s)) + sz <= UINT_MAX.
Proof.
  unfold add_node_ok. rewrite !andb_true_iff, !Z.leb_le.
  intros ((((Hv & H0) & Hsz) & _) & Hlen).
  apply is_var_id_range in Hv. lia.
Qed.

(** The state handed to [insert_aux]: the head has its entries in the
    per-variable vectors, nothing that was stored is lost, and the children
    stand at the end of the arena. *)
Lemma add_node_pre_spec (s : aig_cuts) (head : literal.t) (sz : Z)
    (args : list literal.t) :
  0 <= literal.var head ->
  let s2 := add_node_pre s head sz args in
  m_config s2 = m_config s
  /\ m_num_cut_calls s2 = m_num_cut_calls s
  /\ m_roots s2 = m_roots s
  /\ m_literals s2 = m_literals s ++ take (Z.to_nat sz) args
  /\ (forall u, alternatives s2 u = alternatives s u)
  /\ (Z.to_nat (literal.var head) < length (m_last_touched s2))%nat
  /\ (Z.to_nat (literal.var head) < length (m_aig s2))%nat
  /\ (forall u x, m_aig s !! u = Some x -> m_aig s2 !! u = Some x)
  /\ (forall u x, m_cuts s !! u = Some x -> m_cuts s2 !! u = Some x)
  /\ (forall u x, m_last_touched s !! u = Some x ->
        m_last_touched s2 !! u = Some x).
Proof.
  intros Hv s2. unfold s2, add_node_pre.
  set (vs := literal.var <$> take (Z.to_nat sz) args).
  set (s0 := reserve s (literal.var head)).
  destruct (foldl_reserve_fields vs s0) as (H1 & H2 & H3 & H4 & H5 & H6).
  change (m_last_touched s0)
    with (grow (m_last_touched s) (Z.to_nat (literal.var head + 1)) 0) in H5.
  change (m_aig s0)
    with (grow (m_aig s) (Z.to_nat (literal.var head + 1)) []) in H6.
  rewrite length_grow in H5. rewrite length_grow in H6.
  cbn [set_m_literals m_config m_num_cut_calls m_roots m_literals m_aig
       m_cuts m_last_touched].
  split; [exact H1 |]. split; [exact H3 |]. split; [exact H4 |].
  split; [rewrite H2; reflexivity |].
  split.
  { intros u. transitivity (alternatives (foldl reserve s0 vs) u);
      [reflexivity |].
    rewrite alternatives_foldl_reserve. apply alternatives_reserve. }
  split; [lia |]. split; [lia |].
  repeat split; intros u x Hx;
    apply (foldl_reserve_keeps vs s0 u); simpl; apply lookup_grow_old; exact Hx.
Qed.

Lemma alternatives_insert (s : aig_cuts) (v : Z) (alts : list node.t) :
  (Z.to_nat v < length (m_aig s))%nat ->
  alternatives (set_m_aig s (<[Z.to_nat v := alts]> (m_aig s))) v = alts.
Proof.
  intros H. unfold alternatives. simpl.
  rewrite list_lookup_insert_eq by exact H. reflexivity.
Qed.

Lemma alternatives_insert_ne (s : aig_cuts) (v u : Z) (alts : list node.t) :
  Z.to_nat u <> Z.to_nat v ->
  alternatives (set_m_aig s (<[Z.to_nat v := alts]> (m_aig s))) u
  = alternatives s u.
Proof.
  intros H. unfold alternatives. simpl.
  rewrite list_lookup_insert_ne by congruence. reflexivity.
Qed.

(** What [add_node] does with a definition that [insert_aux] stores. *)
Lemma add_node_stored (s : aig_cuts) (head : literal.t) (op : bool_op)
    (sz : Z) (args : list literal.t) (s3 : aig_cuts) :
  add_node_ok s head sz args = true ->
  insert_aux (add_node_pre s head sz args) (literal.var head)
    (add_node_node s head op sz) = (true, s3) ->
  let v := literal.var head in
  let s' := set_m_last_touched (init_cut_set s3 v)
              (<[Z.to_nat v := wrap (v + wrap (m_num_cut_calls s3 * aig_size s3))]>
                 (m_last_touched s3)) in
  add_node s head op sz args = Some s'
  /\ m_last_touched s' !! Z.to_nat v
     = Some (wrap (v + wrap (m_num_cut_calls s' * aig_size s'))).
Proof.
  intros Hok Hins v s'.
  destruct (add_node_ok_spec _ _ _ _ Hok) as (Hv & Hsz & Hlen).
  destruct (add_node_pre_spec s head sz args) as (_ & _ & _ & _ & _ & Ht & _);
    [lia |].
  pose proof (insert_aux_frame (add_node_pre s head sz args) v
                (add_node_node s head op sz)) as (Hfr & _ & _).
  fold v in Hins. rewrite Hins in Hfr. simpl in Hfr.
  assert (Hlt : (Z.to_nat v < length (m_last_touched s3))%nat)
    by (rewrite Hfr; exact Ht).
  split.
  - unfold add_node. rewrite Hok. fold v. rewrite Hins.
    apply (touch_defined (init_cut_set s3 v) v). exact Hlt.
  - unfold s'. cbn [set_m_last_touched m_last_touched m_num_cut_calls].
    apply list_lookup_insert_eq. exact Hlt.
Qed.

Lemma insert_aux_replaces (s : aig_cuts) (v : Z) (n : node.t) (i : nat)
    (w : node.t) :
  config.m_max_aux (m_config s) <= Z.of_nat (length (alternatives s v)) ->
  worst (alternatives s v) = Some (i, w) ->
  node.size n < node.size w ->
  insert_aux s v n
  = (true, set_m_aig s
             (<[Z.to_nat v := delete i (alternatives s v) ++ [n]]> (m_aig s))).
Proof.
  intros Hmax Hw Hlt. unfold insert_aux.
  replace (Z.of_nat (length (alternatives s v)) <? config.m_max_aux (m_config s))
    with false by (symmetry; apply Z.ltb_ge; exact Hmax).
  rewrite Hw.
  replace (node.size n <? node.size w) with true
    by (symmetry; apply Z.ltb_lt; exact Hlt).
  reflexivity.
Qed.

Lemma insert_aux_drops (s : aig_cuts) (v : Z) (n : node.t) :
  config.m_max_aux (m_config s) <= Z.of_nat (length (alternatives s v)) ->
  (forall i w, worst (alternatives s v) = Some (i, w) ->
     node.size w <= node.size n) ->
  insert_aux s v n = (false, s).
Proof.
  intros Hmax Hw. unfold insert_aux.
  replace (Z.of_nat (length (alternatives s v)) <? config.m_max_aux (m_config s))
    with false by (symmetry; apply Z.ltb_ge; exact Hmax).
  destruct (worst (alternatives s v)) as [[i w] |]; [| reflexivity].
  replace (node.size n <? node.size w) with false
    by (symmetry; apply Z.ltb_ge; apply (Hw i w); reflexivity).
  reflexivity.
Qed.

(** A stored definition is the last alternative of its variable. *)
Lemma insert_aux_stored_last (s : aig_cuts) (v : Z) (n : node.t) (s3 : aig_cuts) :
  (Z.to_nat v < length (m_aig s))%nat ->
  insert_aux s v n = (true, s3) ->
  exists l : list node.t, alternatives s3 v = l ++ [n].
Proof.
  intros Ha Hins. unfold insert_aux in Hins.
  destruct (Z.of_nat (length (alternatives s v)) <? config.m_max_aux (m_config s)).
  - injection Hins as <-. eexists. apply alternatives_insert. exact Ha.
  - destruct (worst (alternatives s v)) as [[i w] |]; [| discriminate].
    destruct (node.size n <? node.size w); [| discriminate].
    injection Hins as <-. eexists. apply alternatives_insert. exact Ha.
Qed.

(** After a stored definition the head is touched, unless the stamp
    arithmetic wraps. *)
Lemma add_node_stored_touched (s : aig_cuts) (head : literal.t) (op : bool_op)
    (sz : Z) (args : list literal.t) (s3 s' : aig_cuts) :
  add_node_ok s head sz args = true ->
  insert_aux (add_node_pre s head sz args) (literal.var head)
    (add_node_node s head op sz) = (true, s3) ->
  add_node s head op sz args = Some s' ->
  wrap (m_num_cut_calls s * aig_size (add_node_pre s head sz args))
    + aig_size (add_node_pre s head sz args) + literal.var head <= UINT_MAX ->
  is_touched s' (literal.var head) = Some true.
Proof.
  intros Hok Hins Hadd Hb.
  destruct (add_node_ok_spec _ _ _ _ Hok) as (Hv & _ & _).
  destruct (add_node_pre_spec s head sz args) as (_ & Hcalls & _); [lia |].
  destruct (add_node_stored s head op sz args s3 Hok Hins) as (Hadd' & Hstamp).
  cbv zeta in Hadd', Hstamp.
  rewrite Hadd in Hadd'. injection Hadd' as Hs'. rewrite <- Hs' in Hstamp.
  pose proof (insert_aux_frame (add_node_pre s head sz args) (literal.var head)
                (add_node_node s head op sz)) as (Hfr & _ & Hlen).
  rewrite Hins in Hfr, Hlen. cbn [snd] in Hfr, Hlen.
  assert (Hc : m_num_cut_calls s' = m_num_cut_calls s).
  { rewrite Hs'. cbn [set_m_last_touched init_cut_set set_m_cuts m_num_cut_calls].
    rewrite Hfr. cbn [set_m_aig m_num_cut_calls]. exact Hcalls. }
  assert (Hn : aig_size s' = aig_size (add_node_pre s head sz args)).
  { rewrite Hs'. unfold aig_size.
    cbn [set_m_last_touched init_cut_set set_m_cuts m_aig].
    rewrite Hlen. reflexivity. }
  rewrite (is_touched_stamp s' _ _ Hstamp). f_equal.
  rewrite Hc, Hn.
  apply (stamp_fresh (m_num_cut_calls s)
           (aig_size (add_node_pre s head sz args)) (literal.var head));
    [lia | apply aig_size_nonneg | exact Hb].
Qed.

(** C5, as the model has it.  [add_node] on a variable that already holds
    [m_max_aux] alternatives: a definition with at least as many children as
    every alternative is ignored (the definitions of every variable, the
    arena, the stamps and the cut sets stay as they were); a definition with
    strictly fewer children than some alternative takes the place of the
    alternative with the most children (the first one among equals), the
    number of alternatives staying the same.  Whenever the definition is
    stored, at the maximum or below it, it becomes the last alternative of
    the head variable, which carries the stamp that [touch] writes; and
    [is_touched] of the head holds provided the stamp arithmetic does not
    wrap around [2^32]. *)
Theorem add_node_at_max_aux (s : aig_cuts) (head : literal.t) (op : bool_op)
    (sz : Z) (args : list literal.t) :
  let v := literal.var head in
  let n := add_node_node s head op sz in
  let alts := alternatives s v in
  let s2 := add_node_pre s head sz args in
  add_node_ok s head sz args = true ->
  (config.m_max_aux (m_config s) <= Z.of_nat (length alts) ->
   ((forall m, m ∈ alts -> node.size m <= sz) ->
    exists s' : aig_cuts,
      add_node s head op sz args = Some s'
      /\ (forall u, alternatives s' u = alternatives s u)
      /\ m_literals s' = m_literals s
      /\ (forall u x, m_last_touched s !! u = Some x ->
            m_last_touched s' !! u = Some x)
      /\ (forall u x, m_cuts s !! u = Some x -> m_cuts s' !! u = Some x))
   /\ ((exists m, m ∈ alts /\ sz < node.size m) ->
       exists (s' : aig_cuts) (i : nat) (w : node.t),
         add_node s head op sz args = Some s'
         /\ alts !! i = Some w
         /\ (forall m, m ∈ alts -> node.size m <= node.size w)
         /\ (forall j m, (j < i)%nat -> alts !! j = Some m ->
               node.size m < node.size w)
         /\ alternatives s' v = delete i alts ++ [n]
         /\ length (alternatives s' v) = length alts
         /\ (forall u, Z.to_nat u <> Z.to_nat v ->
               alternatives s' u = alternatives s u)
         /\ m_last_touched s' !! Z.to_nat v
            = Some (wrap (v + wrap (m_num_cut_calls s' * aig_size s')))
         /\ (wrap (m_num_cut_calls s * aig_size s2) + aig_size s2 + v
               <= UINT_MAX ->
             is_touched s' v = Some true)))
  /\ (forall s3 : aig_cuts,
        insert_aux s2 v n = (true, s3) ->
        exists s' : aig_cuts,
          add_node s head op sz args = Some s'
          /\ (exists l : list node.t, alternatives s' v = l ++ [n])
          /\ m_last_touched s' !! Z.to_nat v
             = Some (wrap (v + wrap (m_num_cut_calls s' * aig_size s')))
          /\ (wrap (m_num_cut_calls s * aig_size s2) + aig_size s2 + v
                <= UINT_MAX ->
              is_touched s' v = Some true)).
Proof.
  intros v n alts s2 Hok.
  destruct (add_node_ok_spec _ _ _ _ Hok) as (Hv & Hsz & Hlen).
  destruct (add_node_pre_spec s head sz args)
    as (Hcfg & Hcalls & _ & Hlits & Halt & Ht & Ha & Hka & Hkc & Hkt); [lia |].
  fold s2 in Hcfg, Hcalls, Hlits, Halt, Ht, Ha, Hka, Hkc, Hkt.
  split; [intros Hmax; split |].
  - (* ignored *)
    intros Hworst.
    assert (Hins : insert_aux s2 v n = (false, s2)).
    { apply insert_aux_drops; rewrite Halt, ?Hcfg; [exact Hmax |].
      intros i w Hw. apply Hworst.
      eapply list_elem_of_lookup_2. apply (worst_spec _ _ _ Hw). }
    exists (set_m_literals s2 (m_literals s)). split.
    { unfold add_node. rewrite Hok. fold v s2 n. rewrite Hins. reflexivity. }
    split; [intros u; exact (Halt u) |].
    split; [reflexivity |].
    split; [exact Hkt | exact Hkc].
  - (* replaced *)
    intros (m & Hm & Hlt).
    destruct (worst alts) as [[i w] |] eqn:Hw;
      [| apply worst_None in Hw; rewrite Hw in Hm;
         apply elem_of_nil in Hm; contradiction].
    destruct (worst_spec alts i w Hw) as (Hi & Hmost).
    assert (Hltw : sz < node.size w) by (specialize (Hmost m Hm); lia).
    assert (Hins : insert_aux s2 v n
                   = (true, set_m_aig s2
                              (<[Z.to_nat v := delete i alts ++ [n]]> (m_aig s2)))).
    { unfold alts. rewrite <- (Halt v).
      apply (insert_aux_replaces s2 v n i w).
      - rewrite Halt, Hcfg. exact Hmax.
      - rewrite Halt. exact Hw.
      - exact Hltw. }
    destruct (add_node_stored s head op sz args _ Hok Hins) as (Hadd & Hstamp).
    eexists. exists i, w. split; [exact Hadd |].
    split; [exact Hi |]. split; [exact Hmost |].
    split; [exact (worst_first alts i w Hw) |].
    split; [apply (alternatives_insert s2 v); exact Ha |].
    split.
    { transitivity (length (delete i alts ++ [n]));
        [f_equal; apply (alternatives_insert s2 v); exact Ha |].
      rewrite length_app, length_delete by (eexists; exact Hi).
      apply lookup_lt_Some in Hi. simpl. lia. }
    split.
    { intros u Hu. rewrite <- Halt.
      apply (alternatives_insert_ne s2 v u). exact Hu. }
    split; [exact Hstamp |].
    intros Hb. exact (add_node_stored_touched s head op sz args _ _ Hok Hins Hadd Hb).
  - (* stored *)
    intros s3 Hins.
    destruct (add_node_stored s head op sz args s3 Hok Hins) as (Hadd & Hstamp).
    eexists. split; [exact Hadd |].
    split; [exact (insert_aux_stored_last s2 v n s3 Ha Hins) |].
    split; [exact Hstamp |].
    intros Hb. exact (add_node_stored_touched s head op sz args _ _ Hok Hins Hadd Hb).
Qed.

(** An instance at [full_state]: a conjunction of two literals offered
    for variable 3 replaces the three-child alternative at position 1 and
    leaves the variable touched, and a conjunction of three literals is
    ignored. *)
Lemma add_node_at_max_aux_witness :
  (exists s' : aig_cuts,
      add_node full_state (literal.mk 3 false) and_op 2
        [literal.mk 0 false; literal.mk 2 false] = Some s'
      /\ alternatives s' 3
         = [node.make false and_op 2 0; node.make true xor_op 2 5;
            node.make false and_op 2 7; node.make true and_op 2 9;
            node.make false and_op 2 11]
      /\ is_touched s' 3 = Some true)
  /\ (exists s' : aig_cuts,
        add_node full_state (literal.mk 3 false) and_op 3
          [literal.mk 0 false; literal.mk 1 false; literal.mk 2 false] = Some s'
        /\ alternatives s' 3 = alternatives full_state 3
        /\ m_literals s' = m_literals full_state).
Proof.
  split.
  - destruct (add_node_at_max_aux full_state (literal.mk 3 false) and_op 2
                [literal.mk 0 false; literal.mk 2 false] eq_refl)
      as [Hmax _].
    destruct (Hmax ltac:(vm_compute; discriminate)) as [_ Hrep].
    destruct Hrep as (s' & i & w & Hadd & Hi & Hmost & Hfirst & Halts & _ & _ & _ & Htouched).
    + exists (node.make false and_op 3 2). split; [| simpl; lia].
      apply (list_elem_of_lookup_2 _ 1). reflexivity.
    + exists s'. split; [exact Hadd |]. split.
      * pose proof Hadd as Hs. vm_compute in Hs. injection Hs as Hs.
        rewrite <- Hs. reflexivity.
      * apply Htouched. vm_compute. discriminate.
  - destruct (add_node_at_max_aux full_state (literal.mk 3 false) and_op 3
                [literal.mk 0 false; literal.mk 1 false; literal.mk 2 false]
                eq_refl)
      as [Hmax _].
    destruct (Hmax ltac:(vm_compute; discriminate)) as [Hign _].
    destruct Hign as (s' & Hadd & Halts & Hlits & _).
    + intros m Hm.
      change (alternatives full_state (literal.var (literal.mk 3 false)))
        with [node.make false and_op 2 0; node.make false and_op 3 2;
              node.make true xor_op 2 5; node.make false and_op 2 7;
              node.make true and_op 2 9] in Hm.
      repeat (apply elem_of_cons in Hm; destruct Hm as [-> | Hm];
              [simpl; lia |]).
      apply elem_of_nil in Hm. contradiction.
    + exists s'. split; [exact Hadd |]. split; [apply Halts | exact Hlits].
Defined.

(** C5 fails as stated: late in the life of [full_state], with the product
    of the pass counter and the size of the store at [2^32 - 4], the
    conjunction offered for variable 3 is stored and [touch(3)] writes the
    stamp [2^32 - 1]; its sum with the size wraps to 3, and [is_touched(3)]
    is false. *)
Lemma add_node_stored_not_touched_on_wrap :
  exists s' : aig_cuts,
    add_node full_state_late (literal.mk 3 false) and_op 2
      [literal.mk 0 false; literal.mk 2 false] = Some s'
    /\ alternatives s' 3
       = [node.make false and_op 2 0; node.make true xor_op 2 5;
          node.make false and_op 2 7; node.make true and_op 2 9;
          node.make false and_op 2 11]
    /\ m_last_touched s' !! Z.to_nat 3 = Some 4294967295
    /\ is_touched s' 3 = Some false.
Proof.
  eexists. split; [vm_compute; reflexivity |].
  split; [reflexivity |]. split; reflexivity.
Qed.

(** ** The arena invariant *)

Lemma has_children_iff (n : node.t) :
  has_children n = true
  <-> node.op n = and_op \/ node.op n = xor_op \/ node.op n = ite_op.
Proof.
  unfold has_children, node.is_and, node.is_xor, node.is_ite, node.op.
  rewrite !orb_true_iff, !bool_op_eqb_eq. tauto.
Qed.

Lemma arena_inv_init : arena_inv init.
Proof.
  split; [simpl; unfold UINT_MAX; lia |].
  intros v alts n H. destruct v; discriminate H.
Qed.

(** Definitions may be dropped and the arena may grow. *)
Lemma arena_inv_weaken (s s' : aig_cuts) :
  arena_inv s ->
  Z.of_nat (length (m_literals s')) <= UINT_MAX ->
  (length (m_literals s) <= length (m_literals s'))%nat ->
  (forall (v : nat) (alts : list node.t) (n : node.t),
      m_aig s' !! v = Some alts -> n ∈ alts -> has_children n = true ->
      (exists alts0, m_aig s !! v = Some alts0 /\ n ∈ alts0)
      \/ (0 <= node.offset n /\ 0 <= node.size n
          /\ node.offset n + node.size n <= Z.of_nat (length (m_literals s')))) ->
  arena_inv s'.
Proof.
  intros [_ Hinv] Hmax Hlen Hsub. split; [exact Hmax |].
  intros v alts n Hv Hn Hc.
  destruct (Hsub v alts n Hv Hn Hc) as [(alts0 & Hv0 & Hn0) | Hnew];
    [| exact Hnew].
  specialize (Hinv v alts0 n Hv0 Hn0 Hc). lia.
Qed.

Lemma arena_inv_add_var (s : aig_cuts) (v : Z) (s' : aig_cuts) :
  arena_inv s -> add_var s v = Some s' -> arena_inv s'.
Proof.
  intros Hinv Hadd. unfold add_var in Hadd.
  destruct (is_var_id v); [| discriminate]. injection Hadd as <-.
  apply (arena_inv_weaken s); [exact Hinv | apply Hinv | reflexivity |].
  intros u alts n Hu Hn Hc. simpl in Hu.
  apply list_lookup_insert_Some in Hu.
  destruct Hu as [(_ & <- & _) | (_ & Hu)].
  - apply list_elem_of_singleton in Hn. subst n. discriminate Hc.
  - apply lookup_grow in Hu. destruct Hu as [Hu | ->].
    + left. exists alts. split; assumption.
    + apply elem_of_nil in Hn. contradiction.
Qed.

Lemma arena_inv_add_node (s : aig_cuts) (head : literal.t) (op : bool_op)
    (sz : Z) (args : list literal.t) (s' : aig_cuts) :
  arena_inv s -> add_node s head op sz args = Some s' -> arena_inv s'.
Proof.
  intros Hinv Hadd. unfold add_node in Hadd.
  destruct (add_node_ok s head sz args) eqn:Hok; [| discriminate].
  destruct (add_node_ok_spec _ _ _ _ Hok) as (Hv & Hsz & Hlen).
  destruct (add_node_pre_spec s head sz args)
    as (_ & _ & _ & Hlits & Halt & Ht & Ha & _); [lia |].
  set (v := literal.var head) in *.
  set (s2 := add_node_pre s head sz args) in *.
  set (n := add_node_node s head op sz) in *.
  assert (Hold : forall (u : nat) (alts : list node.t) (m : node.t),
             m_aig s2 !! u = Some alts -> m ∈ alts ->
             exists alts0, m_aig s !! u = Some alts0 /\ m ∈ alts0).
  { intros u alts m Hu Hm.
    pose proof (Halt (Z.of_nat u)) as Hau. unfold alternatives in Hau.
    rewrite Nat2Z.id, Hu in Hau. simpl in Hau.
    destruct (m_aig s !! u) as [alts0 |]; simpl in Hau; subst alts.
    - exists alts0. split; [reflexivity | exact Hm].
    - apply elem_of_nil in Hm. contradiction. }
  assert (Hlen2 : length (m_literals s2) = (length (m_literals s) + Z.to_nat sz)%nat).
  { rewrite Hlits, length_app, length_take_le by lia. reflexivity. }
  destruct (insert_aux s2 v n) as [[|] s3] eqn:Hins.
  - (* stored *)
    pose proof (insert_aux_frame s2 v n) as (Hfr & Hne & _).
    rewrite Hins in Hfr, Hne. cbn [snd] in Hfr, Hne.
    assert (Hlits3 : m_literals s3 = m_literals s2) by (rewrite Hfr; reflexivity).
    assert (Hlt : (Z.to_nat v < length (m_last_touched (init_cut_set s3 v)))%nat)
      by (rewrite Hfr; exact Ht).
    rewrite (touch_defined _ _ Hlt) in Hadd. injection Hadd as <-.
    apply (arena_inv_weaken s); [exact Hinv | | |];
      cbn [set_m_last_touched init_cut_set set_m_cuts m_literals m_aig];
      rewrite ?Hlits3.
    + lia.
    + lia.
    + intros u alts m Hu Hm Hc.
      destruct (decide (u = Z.to_nat v)) as [-> | Hneq].
      * (* the head: old definitions and the new node *)
        assert (Hin : m = n \/ m ∈ alternatives s2 v).
        { unfold insert_aux in Hins.
          destruct (Z.of_nat (length (alternatives s2 v))
                    <? config.m_max_aux (m_config s2)).
          - injection Hins as <-. cbn [set_m_aig m_aig] in Hu.
            rewrite list_lookup_insert_eq in Hu by exact Ha.
            injection Hu as <-. apply elem_of_app in Hm.
            destruct Hm as [Hm | Hm]; [right; exact Hm |].
            apply list_elem_of_singleton in Hm. left; exact Hm.
          - destruct (worst (alternatives s2 v)) as [[i w] |]; [| discriminate].
            destruct (node.size n <? node.size w); [| discriminate].
            injection Hins as <-. cbn [set_m_aig m_aig] in Hu.
            rewrite list_lookup_insert_eq in Hu by exact Ha.
            injection Hu as <-. apply elem_of_app in Hm.
            destruct Hm as [Hm | Hm].
            + right. eapply list_elem_of_delete_inv. exact Hm.
            + apply list_elem_of_singleton in Hm. left; exact Hm. }
        destruct Hin as [-> | Hin].
        -- right. unfold n, add_node_node.
           cbn [node.make node.offset node.size node.m_offset node.m_size].
           lia.
        -- left. unfold alternatives in Hin.
           destruct (m_aig s2 !! Z.to_nat v) as [alts2 |] eqn:H2; simpl in Hin.
           ++ exact (Hold _ _ _ H2 Hin).
           ++ apply elem_of_nil in Hin. contradiction.
      * left. rewrite (Hne u Hneq) in Hu. exact (Hold _ _ _ Hu Hm).
  - (* ignored *)
    injection Hadd as <-.
    apply (arena_inv_weaken s); [exact Hinv | apply Hinv | reflexivity |].
    intros u alts m Hu Hm Hc. left. exact (Hold _ _ _ Hu Hm).
Qed.

Lemma arena_inv_set_root (s : aig_cuts) (v : Z) (r : literal.t) :
  arena_inv s -> arena_inv (set_root s v r).
Proof.
  intros Hinv. unfold set_root.
  destruct (existsb _ (m_roots s)); [exact Hinv |]. exact Hinv.
Qed.

Lemma arena_inv_inc_max_cutset_size (s : aig_cuts) (v : Z) (s' : aig_cuts) :
  arena_inv s -> inc_max_cutset_size s v = Some s' -> arena_inv s'.
Proof.
  intros Hinv Hinc. unfold inc_max_cutset_size in Hinc.
  destruct (m_max_cutset_size s !! Z.to_nat v) as [c |]; [| discriminate].
  simpl in Hinc. unfold touch in Hinc. simpl in Hinc.
  destruct (m_last_touched s !! Z.to_nat v); [| discriminate].
  injection Hinc as <-. exact Hinv.
Qed.

Lemma arena_inv_touch (s : aig_cuts) (v : Z) (s' : aig_cuts) :
  arena_inv s -> touch s v = Some s' -> arena_inv s'.
Proof.
  intros Hinv Ht. unfold touch in Ht.
  destruct (m_last_touched s !! Z.to_nat v); [| discriminate].
  injection Ht as <-. exact Hinv.
Qed.

(** Rewriting children in place keeps the length of the arena. *)
Lemma length_foldl_alter (f : literal.t -> literal.t) (ixs : list nat)
    (lits : list literal.t) :
  length (foldl (fun ls i => alter f i ls) lits ixs) = length lits.
Proof.
  revert lits. induction ixs as [| i ixs IH]; intros lits; simpl; [reflexivity |].
  rewrite IH. apply length_alter.
Qed.

Lemma length_flush_roots_node (f : literal.t -> literal.t)
    (lits : list literal.t) (n : node.t) :
  length (flush_roots_node f lits n) = length lits.
Proof.
  unfold flush_roots_node. destruct (has_children n); [| reflexivity].
  apply length_foldl_alter.
Qed.

Lemma length_flush_roots_nodes (f : literal.t -> literal.t)
    (aig : list (list node.t)) (lits : list literal.t) :
  length (foldl (foldl (flush_roots_node f)) lits aig) = length lits.
Proof.
  revert lits. induction aig as [| alts aig IH]; intros lits; simpl;
    [reflexivity |].
  rewrite IH. clear IH. revert lits.
  induction alts as [| n alts IH]; intros lits; simpl; [reflexivity |].
  rewrite IH. apply length_flush_roots_node.
Qed.

Lemma flush_roots_frame (s : aig_cuts) :
  m_aig (flush_roots s) = m_aig s
  /\ length (m_literals (flush_roots s)) = length (m_literals s).
Proof.
  unfold flush_roots. split; [reflexivity |].
  cbn [set_m_cuts set_m_literals m_literals].
  apply length_flush_roots_nodes.
Qed.

Lemma arena_inv_operator_call (enumerate : aig_cuts -> aig_cuts) (s : aig_cuts) :
  arena_inv s -> arena_inv (operator_call enumerate s).
Proof.
  intros Hinv. destruct (flush_roots_frame s) as (Haig & Hlen).
  apply (arena_inv_weaken s); [exact Hinv | | |];
    unfold operator_call; cbn [m_literals m_aig].
  - rewrite Hlen. apply Hinv.
  - rewrite Hlen. reflexivity.
  - intros v alts n Hv Hn _. left. exists alts. rewrite <- Haig.
    split; assumption.
Qed.

Lemma reachable_arena_inv (enumerate : aig_cuts -> aig_cuts) (s : aig_cuts) :
  reachable enumerate s -> arena_inv s.
Proof.
  induction 1 as [| s v s' _ IH Hadd | s head op sz args s' _ IH Hadd
                  | s v r _ IH | s v s' _ IH Hinc | s v s' _ IH Ht | s _ IH].
  - exact arena_inv_init.
  - exact (arena_inv_add_var s v s' IH Hadd).
  - exact (arena_inv_add_node s head op sz args s' IH Hadd).
  - exact (arena_inv_set_root s v r IH).
  - exact (arena_inv_inc_max_cutset_size s v s' IH Hinc).
  - exact (arena_inv_touch s v s' IH Ht).
  - exact (arena_inv_operator_call enumerate s IH).
Qed.

(** [child] reads inside the arena whenever the node keeps its children
    there. *)
Lemma child_defined (s : aig_cuts) (n : node.t) (idx : Z) :
  Z.of_nat (length (m_literals s)) <= UINT_MAX ->
  0 <= node.offset n ->
  node.offset n + node.size n <= Z.of_nat (length (m_literals s)) ->
  0 <= idx < node.size n ->
  exists l : literal.t,
    child s n idx = Some l
    /\ m_literals s !! Z.to_nat (node.offset n + idx) = Some l.
Proof.
  intros Hmax Hoff Hin Hidx. unfold child.
  rewrite wrap_small by lia.
  destruct (lookup_lt_is_Some_2 (m_literals s) (Z.to_nat (node.offset n + idx)))
    as [l Hl]; [lia |].
  exists l. split; exact Hl.
Qed.

(** C6.  In every state reached by the public operations, whatever the
    enumerator derives, a stored [and], [xor] or [ite] node has
    [offset + size] within the length of the literal arena, and [child]
    with an index below the size reads an arena entry. *)
Theorem child_reads_arena (enumerate : aig_cuts -> aig_cuts) (s : aig_cuts)
    (v : nat) (alts : list node.t) (n : node.t) :
  reachable enumerate s ->
  m_aig s !! v = Some alts ->
  n ∈ alts ->
  node.op n = and_op \/ node.op n = xor_op \/ node.op n = ite_op ->
  node.offset n + node.size n <= Z.of_nat (length (m_literals s))
  /\ forall idx : Z, 0 <= idx < node.size n ->
       exists l : literal.t,
         child s n idx = Some l
         /\ m_literals s !! Z.to_nat (node.offset n + idx) = Some l.
Proof.
  intros Hreach Hv Hn Hop.
  destruct (reachable_arena_inv enumerate s Hreach) as [Hmax Hinv].
  apply has_children_iff in Hop.
  destruct (Hinv v alts n Hv Hn Hop) as (Hoff & Hsz & Hin).
  split; [exact Hin |].
  intros idx Hidx. apply child_defined; assumption.
Qed.

(** C6 at [run_state4]: the conjunction stored for variable 2 has its two
    children at the arena entries 0 and 1; the second one was rewritten to
    the root of variable 1 by the pass. *)
Lemma child_reads_arena_witness :
  node.offset (node.make false and_op 2 0) + node.size (node.make false and_op 2 0)
    <= Z.of_nat (length (m_literals run_state4))
  /\ forall idx : Z, 0 <= idx < node.size (node.make false and_op 2 0) ->
       exists l : literal.t,
         child run_state4 (node.make false and_op 2 0) idx = Some l
         /\ m_literals run_state4
              !! Z.to_nat (node.offset (node.make false and_op 2 0) + idx)
            = Some l.
Proof.
  apply (child_reads_arena (fun s => s) run_state4 2
           [node.make false and_op 2 0] (node.make false and_op 2 0)).
  - change run_state4
      with (operator_call (fun s => s)
              (set_root run_state3 1 (literal.mk 0 true))).
    apply reachable_operator_call. apply reachable_set_root.
    apply (reachable_add_node _ run_state2 (literal.mk 2 false) and_op 2
             [literal.mk 0 false; literal.mk 1 true]); [| reflexivity].
    apply (reachable_add_var _ run_state1 1); [| reflexivity].
    apply (reachable_add_var _ init 0); [| reflexivity].
    apply reachable_init.
  - reflexivity.
  - apply list_elem_of_singleton. reflexivity.
  - left. reflexivity.
Defined.

(** ** Further properties of the inline members *)

(** X2.  A stamp expires: for [v < m_aig.size()], when the stamp
    arithmetic of the next two passes does not wrap around [2^32], a variable
    touched now is no longer touched once [m_num_cut_calls] has been
    incremented twice. *)
Theorem touch_expires_after_two_passes (s : aig_cuts) (v : Z) :
  0 <= v < aig_size s ->
  (Z.to_nat v < length (m_last_touched s))%nat ->
  wrap (m_num_cut_calls s * aig_size s) + 2 * aig_size s <= UINT_MAX ->
  exists s' : aig_cuts,
    touch s v = Some s'
    /\ is_touched
         (set_m_num_cut_calls s' (wrap (wrap (m_num_cut_calls s' + 1) + 1))) v
       = Some false.
Proof.
  intros Hv Hlen Hb.
  set (c := m_num_cut_calls s). set (n := aig_size s).
  set (st := wrap (v + wrap (c * n))).
  set (s' := set_m_last_touched s (<[Z.to_nat v := st]> (m_last_touched s))).
  assert (Hst : m_last_touched s' !! Z.to_nat v = Some st)
    by (apply list_lookup_insert_eq; exact Hlen).
  exists s'. split; [apply touch_defined; exact Hlen |].
  rewrite (is_touched_stamp
             (set_m_num_cut_calls s' (wrap (wrap (m_num_cut_calls s' + 1) + 1)))
             v st Hst).
  f_equal. apply Z.leb_gt.
  change (m_num_cut_calls (set_m_num_cut_calls s' _))
    with (wrap (wrap (c + 1) + 1)).
  change (aig_size (set_m_num_cut_calls s' _)) with n.
  fold c n in Hb, Hv.
  pose proof (wrap_range (c * n)) as HP.
  rewrite (wrap_add_l (c + 1) 1), (wrap_mul_l (c + 1 + 1) n).
  replace ((c + 1 + 1) * n) with (c * n + 2 * n) by ring.
  rewrite <- (wrap_add_l (c * n) (2 * n)).
  rewrite (wrap_small (wrap (c * n) + 2 * n)) by lia.
  unfold st. rewrite (wrap_small (v + wrap (c * n))) by lia.
  rewrite (wrap_small (v + wrap (c * n) + n)) by lia. lia.
Qed.

Lemma touch_expires_after_two_passes_witness :
  exists s' : aig_cuts,
    touch small_state 2 = Some s'
    /\ is_touched
         (set_m_num_cut_calls s' (wrap (wrap (m_num_cut_calls s' + 1) + 1))) 2
       = Some false.
Proof.
  apply (touch_expires_after_two_passes small_state 2).
  - vm_compute. split; [discriminate | reflexivity].
  - vm_compute. lia.
  - vm_compute. discriminate.
Defined.

(** [max_cutset_size(UINT_MAX)] is the configured default whatever the
    per-variable vector holds, and for every other variable it is the entry
    of the vector. *)
Lemma max_cutset_size_cases (s : aig_cuts) :
  max_cutset_size s UINT_MAX = Some (config.m_max_cutset_size (m_config s))
  /\ forall v : Z, v <> UINT_MAX ->
       max_cutset_size s v = m_max_cutset_size s !! Z.to_nat v.
Proof.
  split; [reflexivity |].
  intros v Hv. unfold max_cutset_size.
  destruct (v =? UINT_MAX) eqn:E; [apply Z.eqb_eq in E; contradiction |].
  reflexivity.
Qed.

(** X6.  [child(n, idx)] returns the arena entry [offset + idx]: when the
    arena has at most [UINT_MAX] entries and holds the children of [n] at
    [offset .. offset + size - 1], every index below the size is read inside
    the arena. *)
Theorem child_reads_slice (s : aig_cuts) (n : node.t) (idx : Z) :
  Z.of_nat (length (m_literals s)) <= UINT_MAX ->
  0 <= node.offset n ->
  node.offset n + node.size n <= Z.of_nat (length (m_literals s)) ->
  0 <= idx < node.size n ->
  exists l : literal.t,
    child s n idx = Some l
    /\ m_literals s !! Z.to_nat (node.offset n + idx) = Some l.
Proof. exact (child_defined s n idx). Qed.

Lemma child_reads_slice_witness :
  exists l : literal.t,
    child small_state (node.make false and_op 2 0) 1 = Some l
    /\ m_literals small_state
         !! Z.to_nat (node.offset (node.make false and_op 2 0) + 1) = Some l.
Proof.
  apply (child_reads_slice small_state (node.make false and_op 2 0) 1).
  - vm_compute. discriminate.
  - simpl. lia.
  - vm_compute. discriminate.
  - simpl. lia.
Defined.

(** X8.  Touching twice is touching once: the stamp depends on the
    variable, the pass counter and the size of the store only, and [touch]
    changes none of them. *)
Theorem touch_idempotent (s : aig_cuts) (v : Z) (s' : aig_cuts) :
  touch s v = Some s' -> touch s' v = Some s'.
Proof.
  intros H. unfold touch in H.
  destruct (m_last_touched s !! Z.to_nat v) as [x |] eqn:Hx; [| discriminate].
  simpl in H. injection H as <-.
  pose proof (lookup_lt_Some _ _ _ Hx) as Hlen.
  rewrite touch_defined by (simpl; rewrite length_insert; exact Hlen).
  unfold set_m_last_touched. simpl.
  rewrite list_insert_insert_eq. reflexivity.
Qed.

Lemma touch_idempotent_witness :
  touch (set_m_last_touched small_state [9; 0; 0]) 0
  = Some (set_m_last_touched small_state [9; 0; 0]).
Proof. apply (touch_idempotent small_state 0). reflexivity. Defined.

(** X9.  The window of a stamp: a stamp [v + k * m_aig.size()], as [touch]
    writes it in pass [k] for a variable [v < m_aig.size()], makes
    [is_touched(v)] true exactly while [m_num_cut_calls <= k + 1], as long
    as the products stay below [2^32]. *)
Theorem is_touched_window (s : aig_cuts) (v k : Z) :
  0 <= v < aig_size s ->
  0 <= k ->
  0 <= m_num_cut_calls s ->
  m_last_touched s !! Z.to_nat v = Some (v + k * aig_size s) ->
  v + (k + 1) * aig_size s <= UINT_MAX ->
  m_num_cut_calls s * aig_size s <= UINT_MAX ->
  is_touched s v = Some (m_num_cut_calls s <=? k + 1).
Proof.
  intros Hv Hk Hc Hst Hb1 Hb2.
  rewrite (is_touched_stamp s v _ Hst). f_equal.
  rewrite (wrap_small (m_num_cut_calls s * aig_size s)) by nia.
  rewrite (wrap_small (v + k * aig_size s + aig_size s)) by nia.
  destruct (Z.leb_spec (m_num_cut_calls s) (k + 1)) as [Hle | Hgt].
  - apply Z.leb_le. nia.
  - apply Z.leb_gt. nia.
Qed.

Lemma is_touched_window_witness :
  is_touched small_state 0 = Some (m_num_cut_calls small_state <=? 0 + 1).
Proof.
  apply (is_touched_window small_state 0 0).
  - vm_compute. split; [discriminate | reflexivity].
  - lia.
  - vm_compute. discriminate.
  - reflexivity.
  - vm_compute. discriminate.
  - vm_compute. discriminate.
Defined.

(** ** How the inline members compose *)

Lemma touch_None (s : aig_cuts) (v : Z) :
  m_last_touched s !! Z.to_nat v = None -> touch s v = None.
Proof. intros H. unfold touch. rewrite H. reflexivity. Qed.

Lemma touch_Some (s : aig_cuts) (v x : Z) :
  m_last_touched s !! Z.to_nat v = Some x ->
  touch s v =
    Some (set_m_last_touched s
            (<[Z.to_nat v := wrap (v + wrap (m_num_cut_calls s * aig_size s))]>
               (m_last_touched s))).
Proof. intros H. apply touch_defined. eapply lookup_lt_Some. exact H. Qed.

(** X3.  Reading a capacity back: after [inc_max_cutset_size(v)],
    [max_cutset_size(v)] is the former value plus 10 modulo [2^32] (for
    [v] other than [UINT_MAX]), [max_cutset_size] of every other variable is
    what it was, and the default [max_cutset_size(UINT_MAX)] is never
    changed. *)
Theorem max_cutset_size_after_inc (s : aig_cuts) (v : Z) (s' : aig_cuts) :
  inc_max_cutset_size s v = Some s' ->
  max_cutset_size s' UINT_MAX = max_cutset_size s UINT_MAX
  /\ (forall u : Z, Z.to_nat u <> Z.to_nat v ->
        max_cutset_size s' u = max_cutset_size s u)
  /\ (v <> UINT_MAX ->
      exists c : Z,
        max_cutset_size s v = Some c
        /\ max_cutset_size s' v = Some (wrap (c + 10))).
Proof.
  intros H. unfold inc_max_cutset_size in H.
  destruct (m_max_cutset_size s !! Z.to_nat v) as [c |] eqn:Hc; [| discriminate].
  simpl in H. unfold touch in H. simpl in H.
  destruct (m_last_touched s !! Z.to_nat v) as [x |]; [| discriminate].
  simpl in H. injection H as <-.
  split; [reflexivity |]. split.
  - intros u Hu. unfold max_cutset_size. simpl.
    destruct (u =? UINT_MAX); [reflexivity |].
    apply list_lookup_insert_ne. congruence.
  - intros Hv. exists c.
    rewrite !(proj2 (max_cutset_size_cases _) v Hv). simpl.
    split; [exact Hc |].
    apply list_lookup_insert_eq. eapply lookup_lt_Some. exact Hc.
Qed.

Lemma max_cutset_size_after_inc_witness :
  exists s' : aig_cuts,
    inc_max_cutset_size small_state 1 = Some s'
    /\ max_cutset_size s' 1 = Some 30
    /\ max_cutset_size s' 0 = Some 20
    /\ max_cutset_size s' UINT_MAX = Some 20.
Proof.
  destruct (inc_max_cutset_size small_state 1) as [s' |] eqn:E;
    [| vm_compute in E; discriminate E].
  destruct (max_cutset_size_after_inc small_state 1 s' E) as (Hd & Ho & Hv).
  exists s'. split; [reflexivity |].
  destruct (Hv ltac:(unfold UINT_MAX; lia)) as (c & Hc & Hc').
  vm_compute in Hc. injection Hc as <-.
  split; [exact Hc' |]. split.
  - rewrite (Ho 0) by (vm_compute; lia). reflexivity.
  - rewrite Hd. reflexivity.
Defined.

(** X5.  [child] depends on the slice of its node only: two arenas that
    agree on the entries [offset .. offset + size - 1] give the same child
    for every index below the size.  In particular, literals appended to the
    arena never change a child that was read inside it. *)
Theorem child_depends_on_slice (s1 s2 : aig_cuts) (n : node.t) :
  0 <= node.offset n ->
  node.offset n + node.size n <= UINT_MAX + 1 ->
  (forall i : nat,
      node.offset n <= Z.of_nat i < node.offset n + node.size n ->
      m_literals s1 !! i = m_literals s2 !! i) ->
  (forall idx : Z, 0 <= idx < node.size n -> child s1 n idx = child s2 n idx)
  /\ (forall (idx : Z) (l : literal.t) (extra : list literal.t),
        child s1 n idx = Some l ->
        child (set_m_literals s1 (m_literals s1 ++ extra)) n idx = Some l).
Proof.
  intros Hoff Hmax Hagree. split.
  - intros idx Hidx. unfold child.
    rewrite wrap_small by lia. apply Hagree. lia.
  - intros idx l extra Hl. unfold child in *. simpl.
    apply lookup_app_l_Some. exact Hl.
Qed.

Lemma child_depends_on_slice_witness :
  child (set_m_literals small_state
           [literal.mk 0 false; literal.mk 1 false; literal.mk 7 true])
    (node.make false and_op 2 0) 1
  = child small_state (node.make false and_op 2 0) 1.
Proof.
  destruct (child_depends_on_slice small_state
              (set_m_literals small_state
                 [literal.mk 0 false; literal.mk 1 false; literal.mk 7 true])
              (node.make false and_op 2 0)) as [Hslice _].
  - simpl. lia.
  - simpl. unfold UINT_MAX. lia.
  - intros i Hi. simpl in Hi.
    destruct i as [| [| i]]; [reflexivity | reflexivity | lia].
  - symmetry. apply Hslice. split; [discriminate | reflexivity].
Defined.

(** X7.  Touching a variable, directly or through
    [inc_max_cutset_size], never changes whether another variable is
    touched. *)
Theorem is_touched_of_others (s : aig_cuts) (v u : Z) (s' : aig_cuts) :
  touch s v = Some s' \/ inc_max_cutset_size s v = Some s' ->
  Z.to_nat u <> Z.to_nat v ->
  is_touched s' u = is_touched s u.
Proof.
  intros [H | H] Hu.
  - unfold touch in H.
    destruct (m_last_touched s !! Z.to_nat v); [| discriminate].
    simpl in H. injection H as <-. unfold is_touched. simpl.
    rewrite list_lookup_insert_ne by congruence. reflexivity.
  - unfold inc_max_cutset_size in H.
    destruct (m_max_cutset_size s !! Z.to_nat v); [| discriminate].
    simpl in H. unfold touch in H. simpl in H.
    destruct (m_last_touched s !! Z.to_nat v); [| discriminate].
    simpl in H. injection H as <-. unfold is_touched. simpl.
    rewrite list_lookup_insert_ne by congruence. reflexivity.
Qed.

Lemma is_touched_of_others_witness :
  is_touched (set_m_last_touched small_state [9; 0; 0]) 2
  = is_touched small_state 2.
Proof.
  apply (is_touched_of_others small_state 0 2).
  - left. reflexivity.
  - vm_compute. lia.
Defined.

(** X11.  [n] calls of [inc_max_cutset_size(v)] in a row, on a variable
    that has a capacity [c] and a stamp, all succeed and leave the capacity
    [(c + 10 * n) mod 2^32]; the capacities of the other variables, the AIG
    store, the arena and the cut sets are what they were. *)
Theorem inc_max_cutset_size_n_capacity (n : nat) (s : aig_cuts) (v c : Z) :
  m_max_cutset_size s !! Z.to_nat v = Some c ->
  (Z.to_nat v < length (m_last_touched s))%nat ->
  exists s' : aig_cuts,
    inc_max_cutset_size_n n s v = Some s'
    /\ m_max_cutset_size s' !! Z.to_nat v
       = Some (if n is O then c else wrap (c + 10 * Z.of_nat n))
    /\ (forall u : nat, u <> Z.to_nat v ->
          m_max_cutset_size s' !! u = m_max_cutset_size s !! u)
    /\ m_aig s' = m_aig s
    /\ m_literals s' = m_literals s
    /\ m_cuts s' = m_cuts s
    /\ m_num_cut_calls s' = m_num_cut_calls s.
Proof.
  revert s c. induction n as [| n IH]; intros s c Hc Hlen.
  - exists s. split; [reflexivity |]. split; [exact Hc |].
    split; [intros u Hu; reflexivity |]. repeat split.
  - simpl inc_max_cutset_size_n.
    rewrite (inc_max_cutset_size_defined s v c Hc Hlen).
    match goal with |- context [Some ?t ≫= _] => set (s1 := t) end.
    simpl mbind.
    destruct (IH s1 (wrap (c + 10))) as (s' & Hrun & Hcap & Hoth & Ha & Hl & Hcs & Hn).
    { simpl. apply list_lookup_insert_eq. eapply lookup_lt_Some. exact Hc. }
    { simpl. rewrite length_insert. exact Hlen. }
    exists s'. split; [exact Hrun |]. split.
    { rewrite Hcap. destruct n as [| n']; [reflexivity |].
      rewrite wrap_add_l. do 2 f_equal. lia. }
    split.
    { intros u Hu. rewrite (Hoth u Hu). simpl.
      apply list_lookup_insert_ne. congruence. }
    repeat split; assumption.
Qed.

Lemma inc_max_cutset_size_n_capacity_witness :
  exists s' : aig_cuts,
    inc_max_cutset_size_n 3 small_state 1 = Some s'
    /\ m_max_cutset_size s' !! Z.to_nat 1 = Some 50.
Proof.
  destruct (inc_max_cutset_size_n_capacity 3 small_state 1 20)
    as (s' & Hrun & Hcap & _).
  - reflexivity.
  - vm_compute. lia.
  - exists s'. split; [exact Hrun | exact Hcap].
Defined.

(** X12.  In the passes 0 and 1 every variable counts as touched, whatever
    its stamp (as long as the stamp plus the size of the store stays below
    [2^32]). *)
Theorem is_touched_in_first_passes (s : aig_cuts) (v lt : Z) :
  m_last_touched s !! Z.to_nat v = Some lt ->
  0 <= lt ->
  lt + aig_size s <= UINT_MAX ->
  0 <= m_num_cut_calls s <= 1 ->
  is_touched s v = Some true.
Proof.
  intros Hst Hlt Hb Hc.
  rewrite (is_touched_stamp s v lt Hst). f_equal.
  pose proof (aig_size_nonneg s) as Hn.
  rewrite (wrap_small (m_num_cut_calls s * aig_size s)) by nia.
  rewrite (wrap_small (lt + aig_size s)) by lia.
  apply Z.leb_le. nia.
Qed.

Lemma is_touched_in_first_passes_witness :
  is_touched (set_m_num_cut_calls small_state 1) 2 = Some true.
Proof.
  apply (is_touched_in_first_passes (set_m_num_cut_calls small_state 1) 2 0).
  - reflexivity.
  - lia.
  - vm_compute. discriminate.
  - simpl. lia.
Defined.

(** X13.  A stamp is tied to the size of the store at which it was
    written.  When [k] entries are added to [m_aig] after [touch(v)] in pass
    [c] at size [n], [is_touched(v)] holds exactly if
    [(c - 1) * k <= v + n] (no product wrapping around [2^32]): in a late
    pass the touch is forgotten as soon as the store grows. *)
Theorem touch_then_grow (s : aig_cuts) (v : Z) (extra : list (list node.t))
    (s' : aig_cuts) :
  touch s v = Some s' ->
  0 <= v ->
  0 <= m_num_cut_calls s ->
  m_num_cut_calls s * (aig_size s + Z.of_nat (length extra)) <= UINT_MAX ->
  v + (m_num_cut_calls s + 1) * aig_size s + Z.of_nat (length extra)
    <= UINT_MAX ->
  is_touched (set_m_aig s' (m_aig s' ++ extra)) v
  = Some ((m_num_cut_calls s - 1) * Z.of_nat (length extra)
          <=? v + aig_size s).
Proof.
  intros Ht Hv Hc Hb1 Hb2.
  unfold touch in Ht.
  destruct (m_last_touched s !! Z.to_nat v) as [x |] eqn:Hx; [| discriminate].
  simpl in Ht. injection Ht as <-.
  set (c := m_num_cut_calls s) in *. set (n := aig_size s) in *.
  set (k := Z.of_nat (length extra)) in *.
  assert (Hn : 0 <= n) by apply aig_size_nonneg.
  assert (Hk : 0 <= k) by (unfold k; lia).
  unfold is_touched. simpl.
  rewrite list_lookup_insert_eq by (eapply lookup_lt_Some; exact Hx).
  simpl. f_equal.
  replace (aig_size (set_m_aig _ _)) with (n + k)
    by (unfold aig_size, n, k, aig_size; simpl; rewrite length_app; lia).
  fold c n.
  rewrite (wrap_small (c * n)) by nia.
  rewrite (wrap_small (v + c * n)) by nia.
  rewrite (wrap_small (c * (n + k))) by nia.
  rewrite (wrap_small (v + c * n + (n + k))) by nia.
  destruct (Z.leb_spec ((c - 1) * k) (v + n)).
  - apply Z.leb_le. nia.
  - apply Z.leb_gt. nia.
Qed.

Lemma touch_then_grow_witness :
  is_touched
    (set_m_aig (set_m_last_touched small_state [0; 0; 11])
       (m_aig (set_m_last_touched small_state [0; 0; 11]) ++ [[]; []; []])) 2
  = Some false.
Proof.
  apply (touch_then_grow small_state 2 [[]; []; []]).
  - reflexivity.
  - lia.
  - simpl. lia.
  - vm_compute. discriminate.
  - vm_compute. discriminate.
Defined.

(** X14.  [inc_max_cutset_size(v)] absorbs [touch(v)]: touching [v] just
    before raising its capacity changes nothing, and touching it just after
    changes nothing either. *)
Theorem inc_max_cutset_size_absorbs_touch (s : aig_cuts) (v : Z) :
  (touch s v ≫= fun s1 => inc_max_cutset_size s1 v) = inc_max_cutset_size s v
  /\ (inc_max_cutset_size s v ≫= fun s1 => touch s1 v)
     = inc_max_cutset_size s v.
Proof.
  unfold inc_max_cutset_size, touch, aig_size.
  destruct (m_last_touched s !! Z.to_nat v) as [x |] eqn:Hx;
    destruct (m_max_cutset_size s !! Z.to_nat v) as [c |] eqn:Hc;
    simpl; rewrite ?Hx, ?Hc; simpl; try (split; reflexivity).
  pose proof (lookup_lt_Some _ _ _ Hx) as Hlen.
  rewrite list_lookup_insert_eq by exact Hlen. simpl.
  unfold set_m_last_touched, set_m_max_cutset_size. simpl.
  rewrite list_insert_insert_eq. split; reflexivity.
Qed.

(** X15.  Calls on different variables commute: touching [u] and [v], or
    raising the capacities of [u] and [v], gives the same state in either
    order (and is undefined in either order if one of the variables is out
    of range). *)
Theorem touch_inc_commute (s : aig_cuts) (u v : Z) :
  Z.to_nat u <> Z.to_nat v ->
  (touch s u ≫= fun s1 => touch s1 v) = (touch s v ≫= fun s1 => touch s1 u)
  /\ (inc_max_cutset_size s u ≫= fun s1 => inc_max_cutset_size s1 v)
     = (inc_max_cutset_size s v ≫= fun s1 => inc_max_cutset_size s1 u).
Proof.
  intros Hne.
  assert (Hne' : Z.to_nat v <> Z.to_nat u) by congruence.
  unfold inc_max_cutset_size, touch.
  destruct (m_last_touched s !! Z.to_nat u) as [xu |] eqn:Hxu;
    destruct (m_last_touched s !! Z.to_nat v) as [xv |] eqn:Hxv;
    destruct (m_max_cutset_size s !! Z.to_nat u) as [cu |] eqn:Hcu;
    destruct (m_max_cutset_size s !! Z.to_nat v) as [cv |] eqn:Hcv;
    simpl;
    rewrite ?(list_lookup_insert_ne _ _ _ _ Hne),
            ?(list_lookup_insert_ne _ _ _ _ Hne'),
            ?Hxu, ?Hxv, ?Hcu, ?Hcv;
    simpl;
    rewrite ?(list_lookup_insert_ne _ _ _ _ Hne),
            ?(list_lookup_insert_ne _ _ _ _ Hne'),
            ?Hxu, ?Hxv, ?Hcu, ?Hcv;
    simpl;
    try (split; reflexivity);
    unfold set_m_last_touched, set_m_max_cutset_size, aig_size; simpl;
    rewrite ?(list_insert_insert_ne (m_last_touched s)
                (Z.to_nat v) (Z.to_nat u) _ _ Hne'),
            ?(list_insert_insert_ne (m_max_cutset_size s)
                (Z.to_nat v) (Z.to_nat u) _ _ Hne');
    split; reflexivity.
Qed.

Lemma touch_inc_commute_witness :
  (touch small_state 0 ≫= fun s1 => touch s1 2)
  = (touch small_state 2 ≫= fun s1 => touch s1 0).
Proof.
  apply (touch_inc_commute small_state 0 2). vm_compute. lia.
Defined.

(** X16.  A stamp encodes the pass and the variable: for
    [v < m_aig.size()] and without wrap-around, the stamp that [touch(v)]
    writes divided by the size of the store is the pass counter, and its
    remainder is [v]; so stamps written for different variables or in
    different passes at one size differ. *)
Theorem touch_stamp_decodes (s : aig_cuts) (v : Z) (s' : aig_cuts) :
  touch s v = Some s' ->
  0 <= v < aig_size s ->
  0 <= m_num_cut_calls s ->
  v + m_num_cut_calls s * aig_size s <= UINT_MAX ->
  exists st : Z,
    m_last_touched s' !! Z.to_nat v = Some st
    /\ st / aig_size s = m_num_cut_calls s
    /\ st mod aig_size s = v.
Proof.
  intros Ht Hv Hc Hb.
  unfold touch in Ht.
  destruct (m_last_touched s !! Z.to_nat v) as [x |] eqn:Hx; [| discriminate].
  simpl in Ht. injection Ht as <-.
  eexists. split.
  { simpl. apply list_lookup_insert_eq. eapply lookup_lt_Some. exact Hx. }
  rewrite (wrap_small (m_num_cut_calls s * aig_size s)) by nia.
  rewrite (wrap_small (v + m_num_cut_calls s * aig_size s)) by nia.
  split.
  - rewrite Z.div_add by lia. rewrite Z.div_small by lia. lia.
  - rewrite Z.mod_add by lia. apply Z.mod_small. lia.
Qed.

Lemma touch_stamp_decodes_witness :
  exists st : Z,
    m_last_touched (set_m_last_touched small_state [0; 0; 11]) !! Z.to_nat 2
    = Some st
    /\ st / aig_size small_state = m_num_cut_calls small_state
    /\ st mod aig_size small_state = 2.
Proof.
  apply (touch_stamp_decodes small_state 2).
  - reflexivity.
  - vm_compute. split; [discriminate | reflexivity].
  - simpl. lia.
  - vm_compute. discriminate.
Defined.
